(** * Error detection of the data-link layer: parity, checksum and CRC-32

    A shallow embedding of [CamadaEnlace/deteccao_erros.py] (class
    [ErrorDetector]) and of the text/bit helpers of [Utilidades/utils.py],
    with the properties stated about them.

    Python strings are lists of characters, Python integers are [Z], and a
    Python call that may raise is a computation in the [result] monad. *)

From Stdlib Require Import ZArith Ascii String DecimalString.
From stdpp Require Import base tactics list numbers strings.

Local Open Scope Z_scope.

(** ** The fragment of Python the program uses *)

Module Py.

(** The built-in exceptions the program can raise. *)
Inductive exn : Set :=
| ZeroDivisionError
| ValueError
| IndexError.

(** The name of the class of an exception, as Python reports it. *)
Definition exn_name (e : exn) : string :=
  match e with
  | ZeroDivisionError => "ZeroDivisionError"
  | ValueError => "ValueError"
  | IndexError => "IndexError"
  end.

Inductive result (A : Type) : Type :=
| Ok (a : A)
| Raise (e : exn).
Global Arguments Ok {A} a.
Global Arguments Raise {A} e.

Definition bind {A B : Type} (m : result A) (k : A → result B) : result B :=
  match m with
  | Ok a => k a
  | Raise e => Raise e
  end.

(** [for x in xs: s = body(s, x)] *)
Fixpoint for_each {A S : Type} (xs : list A) (body : S → A → result S)
    (s : S) : result S :=
  match xs with
  | [] => Ok s
  | x :: xs' => bind (body s x) (for_each xs' body)
  end.

(** [[f(x) for x in xs]], left to right. *)
Fixpoint map_each {A B : Type} (f : A → result B) (xs : list A)
    : result (list B) :=
  match xs with
  | [] => Ok []
  | x :: xs' =>
      bind (f x) (λ y, bind (map_each f xs') (λ ys, Ok (y :: ys)))
  end.

(** A [str] is the list of its characters. *)
Abbreviation str := (list ascii).

(** A string literal. *)
Definition lit (s : string) : str := list_ascii_of_string s.

Definition len {A : Type} (l : list A) : Z := Z.of_nat (length l).

(** [a % b] and [a // b]: floor division, the remainder has the sign of
    the divisor, and a zero divisor raises. *)
Definition mod_ (a b : Z) : result Z :=
  if b =? 0 then Raise ZeroDivisionError else Ok (a mod b).

Definition floordiv (a b : Z) : result Z :=
  if b =? 0 then Raise ZeroDivisionError else Ok (a / b).

(** [a << b]: a negative shift count raises. *)
Definition lshift (a b : Z) : result Z :=
  if b <? 0 then Raise ValueError else Ok (Z.shiftl a b).

(** [c * k] for a one-character string [c]: empty when [k <= 0]. *)
Definition str_mul (c : ascii) (k : Z) : str := replicate (Z.to_nat k) c.

(** [range(k)] and [range(start, stop, step)] for a positive step. *)
Definition range (k : Z) : list Z := seqZ 0 k.

Definition range3 (start stop step : Z) : list Z :=
  (λ k, start + k * step) <$> seqZ 0 ((stop - start + step - 1) / step).

(** A slice bound: a negative index counts from the end, and the result
    is clamped to [0 .. len]. *)
Definition clamp (n i : Z) : Z :=
  let i := if i <? 0 then i + n else i in
  Z.max 0 (Z.min n i).

(** [l[lo:hi]], where [None] is an omitted bound. *)
Definition slice {A : Type} (l : list A) (lo hi : option Z) : list A :=
  let n := len l in
  let a := match lo with Some i => clamp n i | None => 0 end in
  let b := match hi with Some i => clamp n i | None => n end in
  take (Z.to_nat (b - a)) (drop (Z.to_nat a) l).

(** [l[i]]: a negative index counts from the end, out of range raises. *)
Definition getitem {A : Type} (l : list A) (i : Z) : result A :=
  let i := if i <? 0 then i + len l else i in
  if i <? 0 then Raise IndexError
  else match l !! Z.to_nat i with
       | Some x => Ok x
       | None => Raise IndexError
       end.

(** [l[i] = v] on a list. *)
Definition setitem {A : Type} (l : list A) (i : Z) (v : A)
    : result (list A) :=
  let i := if i <? 0 then i + len l else i in
  if (i <? 0) || (len l <=? i) then Raise IndexError
  else Ok (<[Z.to_nat i := v]> l).

(** [s.count(c)] for a one-character string [c]. *)
Definition count (s : str) (c : ascii) : Z :=
  len (filter (λ x, x = c) s).

Definition digit_value (c : ascii) : option Z :=
  let n := Z.of_N (N_of_ascii c) in
  if (48 <=? n) && (n <=? 57) then Some (n - 48) else None.

(** [int(c)] for a one-character string [c]: a decimal digit, or
    [ValueError]. *)
Definition int_of_char (c : ascii) : result Z :=
  match digit_value c with
  | Some d => Ok d
  | None => Raise ValueError
  end.

(** [int(s, 2)] on strings of digits: the empty string and any character
    other than ['0'] and ['1'] raise [ValueError].  (Python also accepts a
    sign, a [0b] prefix, surrounding blanks and single underscores; the
    program builds no such string from a string of bits.) *)
Fixpoint int_base2_from (acc : Z) (s : str) : result Z :=
  match s with
  | [] => Ok acc
  | c :: s' =>
      if decide (c = "0"%char) then int_base2_from (2 * acc) s'
      else if decide (c = "1"%char) then int_base2_from (2 * acc + 1) s'
      else Raise ValueError
  end.

Definition int_base2 (s : str) : result Z :=
  match s with
  | [] => Raise ValueError
  | _ => int_base2_from 0 s
  end.

(** [str(z)] for an integer. *)
Definition str_of_int (z : Z) : str :=
  list_ascii_of_string (NilZero.string_of_int (Z.to_int z)).

(** [''.join(ss)] *)
Definition join (ss : list str) : str := concat ss.

(** The binary digits of a positive number, most significant first. *)
Fixpoint pos_digits (p : positive) (acc : str) : str :=
  match p with
  | xH => "1"%char :: acc
  | xO p' => pos_digits p' ("0"%char :: acc)
  | xI p' => pos_digits p' ("1"%char :: acc)
  end.

(** [format(z, 'b')]: a minus sign for a negative number, then the digits
    of its magnitude. *)
Definition format_b (z : Z) : str :=
  match z with
  | Z0 => ["0"%char]
  | Zpos p => pos_digits p []
  | Zneg p => "-"%char :: pos_digits p []
  end.

(** [bin(z)] *)
Definition bin (z : Z) : str :=
  match z with
  | Zneg p => lit "-0b" ++ pos_digits p []
  | _ => lit "0b" ++ format_b z
  end.

(** [s.zfill(width)]: zeros on the left, after a leading sign. *)
Definition zfill (s : str) (width : Z) : str :=
  let pad := str_mul "0"%char (width - len s) in
  match s with
  | c :: s' =>
      if decide (c = "+"%char ∨ c = "-"%char) then c :: pad ++ s'
      else pad ++ s
  | [] => pad
  end.

(** [format(z, f'0{width}b')] for a positive [width]: sign-aware zero
    padding of the binary digits to [width] characters. *)
Definition format_0b (z width : Z) : str := zfill (format_b z) width.

(** [chr(z)] on the 8-bit characters. *)
Definition chr (z : Z) : result ascii :=
  if (0 <=? z) && (z <? 256) then Ok (ascii_of_N (Z.to_N z))
  else Raise ValueError.

(** [ord(c)] on the 8-bit characters. *)
Definition ord (c : ascii) : Z := Z.of_N (N_of_ascii c).

End Py.

Import Py.

(** [result] is a monad; [x ← m; k] runs [m] and stops at the first
    exception. *)
Global Instance result_ret : MRet result := @Ok.
Global Instance result_bind : MBind result := λ A B k m, bind m k.

(** A string of bits: every character is ['0'] or ['1']. *)
Definition is_bit (c : ascii) : Prop := c = "0"%char ∨ c = "1"%char.
Definition bitstring (s : str) : Prop := Forall is_bit s.

Global Instance is_bit_dec c : Decision (is_bit c).
Proof. unfold is_bit. apply _. Defined.
Global Instance bitstring_dec s : Decision (bitstring s).
Proof. unfold bitstring. apply _. Defined.

(** ** [CamadaEnlace/deteccao_erros.py] *)

Module ErrorDetector.

(** [self.CRC32_POLY] and [self.CHECKSUM_SIZE], set by [__init__]. *)
Definition CRC32_POLY : Z := 0x104C11DB7.
Definition CHECKSUM_SIZE : Z := 16.

Definition add_even_parity (bit_chunk : str) : str :=
  bit_chunk ++
    (if decide (count bit_chunk "1"%char mod 2 ≠ 0)
     then lit "1" else lit "0").

Definition check_even_parity (chunk_with_parity : str) : bool :=
  bool_decide (count chunk_with_parity "1"%char mod 2 = 0).

(** One pass of the inner loop: [data[i + j] ^= poly[j]]. *)
Definition xor_at (poly : list Z) (i : Z) (data : list Z) (j : Z)
    : result (list Z) :=
  d ← getitem data (i + j);
  p ← getitem poly j;
  setitem data (i + j) (Z.lxor d p).

(** One pass of the outer loop: the window at [i] is XORed with the
    polynomial when [data[i] == 1]. *)
Definition division_step (poly : list Z) (n : Z) (data : list Z) (i : Z)
    : result (list Z) :=
  d ← getitem data i;
  if decide (d = 1) then for_each (range n) (xor_at poly i) data
  else Ok data.

(** The positions the outer loop visits: [range(len(data) - n + 1)]. *)
Definition division_range (data poly : list Z) : list Z :=
  range (len data - len poly + 1).

Definition _crc_division_engine (data_bits_str poly_bits_str : str)
    : result str :=
  poly ← map_each int_of_char poly_bits_str;
  data ← map_each int_of_char data_bits_str;
  let n := len poly in
  data ← for_each (division_range data poly) (division_step poly n) data;
  let remainder := join (str_of_int <$> slice data (Some (- (n - 1))) None) in
  Ok remainder.

Definition generate_crc (data_bits : str) : result str :=
  let poly_bits := slice (bin CRC32_POLY) (Some 2) None in
  let num_poly_bits := len poly_bits in
  let padded_data := data_bits ++ str_mul "0"%char (num_poly_bits - 1) in
  remainder ← _crc_division_engine padded_data poly_bits;
  Ok (zfill remainder (num_poly_bits - 1)).

Definition check_crc (frame_with_crc : str) : result Z :=
  let poly_bits := slice (bin CRC32_POLY) (Some 2) None in
  remainder_str ← _crc_division_engine frame_with_crc poly_bits;
  int_base2 remainder_str.

(** The first loop of [calculate_checksum] and the loop of
    [verify_checksum]: the sum of the words of [bits]. *)
Definition sum_words (bits : str) (checksum_bits num_words : Z) : result Z :=
  for_each (range num_words)
    (λ total i,
       let start := i * checksum_bits in
       let end_ := start + checksum_bits in
       let word := slice bits (Some start) (Some end_) in
       v ← int_base2 word;
       Ok (total + v))
    0.

(** [while total > max_value: total = (total & max_value) + (total >>
    checksum_bits)].  The loop is reached with a positive width only (a
    width of zero has raised at the first [%], a negative one at [1 <<
    checksum_bits]).  Each pass then takes a positive multiple of
    [max_value] off [total], so [total // max_value] passes are enough:
    [fold_carry_unfold] shows that the loop always runs to its end. *)
Fixpoint fold_carry_loop (passes : nat) (checksum_bits max_value total : Z)
    : Z :=
  match passes with
  | O => total
  | S passes' =>
      if total >? max_value then
        let carry := Z.shiftr total checksum_bits in
        fold_carry_loop passes' checksum_bits max_value
          (Z.land total max_value + carry)
      else total
  end.

Definition fold_carry (checksum_bits max_value total : Z) : Z :=
  fold_carry_loop (Z.to_nat (total / max_value))
    checksum_bits max_value total.

Definition calculate_checksum (data_bits : str) (checksum_bits : Z)
    : result str :=
  r ← mod_ (len data_bits) checksum_bits;
  let data_bits :=
    if decide (r ≠ 0) then
      let padding := checksum_bits - r in
      data_bits ++ str_mul "0"%char padding
    else data_bits in
  num_words ← floordiv (len data_bits) checksum_bits;
  total ← sum_words data_bits checksum_bits num_words;
  one ← lshift 1 checksum_bits;
  let max_value := one - 1 in
  let total := fold_carry checksum_bits max_value total in
  let checksum_value := Z.land (Z.lnot total) max_value in
  let checksum_str := format_0b checksum_value checksum_bits in
  Ok checksum_str.

Definition add_checksum (data_bits : str) (checksum_bits : Z) : result str :=
  checksum ← calculate_checksum data_bits checksum_bits;
  Ok (data_bits ++ checksum).

Definition verify_checksum (data_with_checksum : str) (checksum_bits : Z)
    : result bool :=
  let data_bits := slice data_with_checksum None (Some (- checksum_bits)) in
  let received_checksum :=
    slice data_with_checksum (Some (- checksum_bits)) None in
  calculated_checksum ← calculate_checksum data_bits checksum_bits;
  one ← lshift 1 checksum_bits;
  let max_value := one - 1 in
  let all_bits := data_with_checksum in
  num_words ← floordiv (len all_bits) checksum_bits;
  total ← sum_words all_bits checksum_bits num_words;
  let total := fold_carry checksum_bits max_value total in
  Ok (bool_decide (total = 0)).

Definition verify_checksum_simple (data_with_checksum : str)
    (checksum_bits : Z) : result (bool * str * str) :=
  let data_bits := slice data_with_checksum None (Some (- checksum_bits)) in
  let received_checksum :=
    slice data_with_checksum (Some (- checksum_bits)) None in
  calculated_checksum ← calculate_checksum data_bits checksum_bits;
  let is_valid := bool_decide (calculated_checksum = received_checksum) in
  Ok (is_valid, calculated_checksum, received_checksum).

End ErrorDetector.

Import ErrorDetector.

(** ** [Utilidades/utils.py] *)

Module Utils.

Definition text_to_binary (text : str) : str :=
  join ((λ char, format_0b (ord char) 8) <$> text).

Definition binary_to_text (binary_str : str) : result str :=
  padding ← mod_ (len binary_str) 8;
  let binary_str :=
    if decide (padding ≠ 0)
    then slice binary_str None (Some (len binary_str - padding))
    else binary_str in
  let chars :=
    (λ i, slice binary_str (Some i) (Some (i + 8)))
      <$> range3 0 (len binary_str) 8 in
  for_each chars
    (λ out char,
       v ← int_base2 char;
       if decide (v ≠ 0) then
         v' ← int_base2 char;
         c ← chr v';
         Ok (out ++ [c])
       else Ok out)
    [].

(** The corruption of [demonstrate_checksum_example]:
    [corrupted[i] = '1' if corrupted[i] == '0' else '0']. *)
Definition flip_bit (bits : str) (i : Z) : result str :=
  let corrupted := bits in
  c ← getitem corrupted i;
  setitem corrupted i (if decide (c = "0"%char) then "1"%char else "0"%char).

End Utils.

Import Utils.

(** ** The reading of the decoder in the specification

    The groups of eight bits of a string, a trailing group of fewer than
    eight bits being dropped; the value of a group read most significant
    bit first; the characters of the groups whose value is not zero. *)

Definition bit_value (c : ascii) : Z := if decide (c = "1"%char) then 1 else 0.

Fixpoint groups_of_8 (s : str) : list str :=
  match s with
  | b7 :: b6 :: b5 :: b4 :: b3 :: b2 :: b1 :: b0 :: rest =>
      [b7; b6; b5; b4; b3; b2; b1; b0] :: groups_of_8 rest
  | _ => []
  end.

(** The value of the bits of [s] read in binary: the bit at position [i]
    weighs [2 ^ (length s - 1 - i)]. *)
Fixpoint binary_value (s : str) : Z :=
  match s with
  | [] => 0
  | c :: s' => bit_value c * 2 ^ Z.of_nat (length s') + binary_value s'
  end.

(** The end-around carry in closed form: a sum of [w]-bit words reduced to
    one word, where only the sum zero reduces to zero. *)
Definition end_around (max_value total : Z) : Z :=
  if decide (total = 0) then 0 else (total - 1) mod max_value + 1.

Definition binary_to_text_spec (s : str) : str :=
  (λ v, ascii_of_N (Z.to_N v))
    <$> filter (λ v, v ≠ 0) (binary_value <$> groups_of_8 s).

(** ** The division read as XOR with shifted polynomials

    The cells of the working buffer of [_crc_division_engine] are the
    integers 0 and 1.  One pass of its outer loop XORs the whole buffer with
    the polynomial shifted to position [i], padded with zeros on both
    sides. *)

Definition is_cell (z : Z) : Prop := z = 0 ∨ z = 1.
Definition cells (l : list Z) : Prop := Forall is_cell l.

Definition bit_char (z : Z) : ascii :=
  if decide (z = 1) then "1"%char else "0"%char.

Definition xor_cells (a b : list Z) : list Z := zip_with Z.lxor a b.

Definition shifted (poly : list Z) (i m : nat) : list Z :=
  replicate i 0 ++ poly ++ replicate (m - i - length poly) 0.

Definition division_pass (poly data : list Z) (i : nat) : list Z :=
  if decide (data !! i = Some 1)
  then xor_cells data (shifted poly i (length data))
  else data.

Definition divide (poly data : list Z) (k : nat) : list Z :=
  fold_left (division_pass poly) (seq 0 k) data.

(** The cells of the generator polynomial, [bin(self.CRC32_POLY)[2:]]. *)
Definition poly_bits : str := slice (bin CRC32_POLY) (Some 2) None.
Definition poly_cells : list Z := bit_value <$> poly_bits.

(** The last 32 cells of the buffer once the data, padded with 32 zeros,
    has been divided. *)
Definition crc_cells (data : str) : list Z :=
  drop (length data)
    (divide poly_cells ((bit_value <$> data) ++ replicate 32 0) (length data)).

(** ** The checksum read as a sum of words

    The data padded with zero bits to a whole number of words, and the sum
    of the first [k] words of [w] bits of a string. *)

Definition padded_bits (data : str) (w : Z) : str :=
  data ++ replicate (Z.to_nat ((- len data) mod w)) "0"%char.

Fixpoint words_total (w k : nat) (s : str) : Z :=
  match k with
  | O => 0
  | S k' => words_total w k' s + binary_value (take w (drop (k' * w) s))
  end.

Definition checksum_total (data : str) (w : Z) : Z :=
  words_total (Z.to_nat w) (Z.to_nat (len (padded_bits data w) / w))
    (padded_bits data w).

(** The character that [flip_bit] writes over [c], and the change that it
    makes to the value of the bit. *)
Definition flipped (c : ascii) : ascii :=
  if decide (c = "0"%char) then "1"%char else "0"%char.

Definition flip_sign (c : ascii) : Z := if decide (c = "0"%char) then 1 else -1.

(** The cells that flipping the bits at [positions] of an [m]-bit string
    changes: the sum, in GF(2), of one unit buffer for each flip. *)
Fixpoint flip_pattern (m : nat) (positions : list nat) : list Z :=
  match positions with
  | [] => replicate m 0
  | p :: positions' => xor_cells (shifted [1] p m) (flip_pattern m positions')
  end.

(** * Properties *)

(** Linear arithmetic with division and remainder by constants. *)
Ltac zlia := Z.div_mod_to_equations; lia.

(** A decidable proposition about closed terms, by evaluation. *)
Ltac by_decide := apply (bool_decide_unpack _); vm_compute; exact I.

(** ** The monad and the Python primitives *)

Section Primitives.

Context {A : Type}.
Implicit Types l : list A.

Lemma len_nonneg l : 0 ≤ len l.
Proof. unfold len. lia. Qed.

Lemma len_app l1 l2 : len (l1 ++ l2) = len l1 + len l2.
Proof. unfold len. rewrite length_app. lia. Qed.

Lemma len_replicate (x : A) n : len (replicate n x) = Z.of_nat n.
Proof. unfold len. by rewrite length_replicate. Qed.

Lemma getitem_lookup l i x :
  0 ≤ i → l !! Z.to_nat i = Some x → getitem l i = Ok x.
Proof.
  intros Hi Hx. unfold getitem.
  assert ((i <? 0) = false) as E by lia. by rewrite !E, Hx.
Qed.

Lemma setitem_insert l i x :
  0 ≤ i < len l → setitem l i x = Ok (<[Z.to_nat i := x]> l).
Proof.
  intros Hi. unfold setitem.
  assert ((i <? 0) = false) as E by lia.
  assert ((len l <=? i) = false) as E' by lia. by rewrite !E, E'.
Qed.

(** [l[a:b]] for bounds in range. *)
Lemma slice_take_drop l a b :
  0 ≤ a → a ≤ b → b ≤ len l →
  slice l (Some a) (Some b) = take (Z.to_nat (b - a)) (drop (Z.to_nat a) l).
Proof.
  intros Ha Hab Hb. unfold slice, clamp; cbv zeta.
  assert ((a <? 0) = false) as -> by lia.
  assert ((b <? 0) = false) as -> by lia.
  do 2 f_equal; lia.
Qed.

(** [l[:-k]] and [l[-k:]] split [l] before its last [k] elements. *)
Lemma slice_init_app l1 l2 :
  l2 ≠ [] → slice (l1 ++ l2) None (Some (- len l2)) = l1.
Proof.
  intros Hne. unfold slice, clamp; cbv zeta. rewrite len_app.
  assert (0 < len l2) by (destruct l2; [done|unfold len; simpl; lia]).
  pose proof (len_nonneg l1).
  assert ((- len l2 <? 0) = true) as -> by lia.
  replace (Z.to_nat _) with (length l1) by (unfold len in *; lia).
  change (Z.to_nat 0) with 0%nat. by rewrite drop_0, take_app_length.
Qed.

Lemma slice_last_app l1 l2 :
  l2 ≠ [] → slice (l1 ++ l2) (Some (- len l2)) None = l2.
Proof.
  intros Hne. unfold slice, clamp; cbv zeta. rewrite len_app.
  assert (0 < len l2) by (destruct l2; [done|unfold len; simpl; lia]).
  pose proof (len_nonneg l1).
  assert ((- len l2 <? 0) = true) as -> by lia.
  replace (Z.to_nat (Z.max _ _)) with (length l1) by (unfold len in *; lia).
  rewrite drop_app_length. apply take_ge. unfold len in *. lia.
Qed.

(** [l[i:]] for a negative [i] that reaches before the start of the list is
    the whole list. *)
Lemma slice_last_short l i :
  i < 0 → len l ≤ - i → slice l (Some i) None = l.
Proof.
  intros Hi Hl. unfold slice, clamp; cbv zeta. pose proof (len_nonneg l).
  assert ((i <? 0) = true) as -> by lia.
  replace (Z.to_nat (Z.max _ _)) with 0%nat by lia.
  rewrite drop_0. apply take_ge. unfold len in *. lia.
Qed.

(** [l[i:]] for a negative [i] within the list drops all but the last
    [-i] elements. *)
Lemma slice_last_drop l i :
  - len l ≤ i < 0 → slice l (Some i) None = drop (Z.to_nat (len l + i)) l.
Proof.
  intros Hi. unfold slice, clamp; cbv zeta.
  assert ((i <? 0) = true) as -> by lia.
  replace (Z.to_nat (Z.max _ _)) with (Z.to_nat (len l + i)) by lia.
  apply take_ge. rewrite length_drop. unfold len in *. lia.
Qed.

End Primitives.

Lemma for_each_app {A S : Type} (xs ys : list A) (body : S → A → result S) s :
  for_each (xs ++ ys) body s = bind (for_each xs body s) (for_each ys body).
Proof.
  revert s. induction xs as [|x xs IH]; intros s; simpl; [done|].
  destruct (body s x); simpl; [apply IH|done].
Qed.

Lemma range_succ (k : nat) :
  range (Z.of_nat (S k)) = range (Z.of_nat k) ++ [Z.of_nat k].
Proof. unfold range. by rewrite seqZ_S. Qed.

Lemma range_nil k : k ≤ 0 → range k = [].
Proof. apply seqZ_nil. Qed.

(** ** Strings of bits *)

Lemma bitstring_app s1 s2 :
  bitstring (s1 ++ s2) ↔ bitstring s1 ∧ bitstring s2.
Proof. apply Forall_app. Qed.

Lemma bitstring_replicate n c : is_bit c → bitstring (replicate n c).
Proof. intros Hc. by apply Forall_replicate. Qed.

Lemma count_app s1 s2 c : count (s1 ++ s2) c = count s1 c + count s2 c.
Proof. unfold count. rewrite filter_app. apply len_app. Qed.

Lemma count_cons x s c :
  count (x :: s) c = (if decide (x = c) then 1 else 0) + count s c.
Proof.
  unfold count, len. rewrite filter_cons.
  destruct (decide (x = c)); simpl; lia.
Qed.

Lemma count_nonneg s c : 0 ≤ count s c.
Proof. apply len_nonneg. Qed.

(** ** Even parity *)

Lemma add_even_parity_count b :
  count (add_even_parity b) "1"%char mod 2 = 0.
Proof.
  unfold add_even_parity. pose proof (count_nonneg b "1"%char).
  destruct (decide _) as [Hodd|Heven]; rewrite count_app.
  - change (count (lit "1") "1"%char) with 1. zlia.
  - change (count (lit "0") "1"%char) with 0. zlia.
Qed.

Lemma add_even_parity_bitstring b :
  bitstring b → bitstring (add_even_parity b).
Proof.
  intros Hb. unfold add_even_parity. apply bitstring_app. split; [done|].
  destruct (decide _); by_decide.
Qed.

(** Flipping a bit of a string of bits moves the number of ones by one. *)
Lemma flip_bit_count s i :
  bitstring s → 0 ≤ i < len s →
  ∃ s', flip_bit s i = Ok s' ∧
        (count s' "1"%char = count s "1"%char + 1 ∨
         count s' "1"%char = count s "1"%char - 1).
Proof.
  intros Hs Hi. unfold len in Hi.
  destruct (lookup_lt_is_Some_2 s (Z.to_nat i)) as [c Hc]; [lia|].
  unfold flip_bit. rewrite (getitem_lookup _ _ c) by (done || lia).
  simpl. rewrite setitem_insert by (unfold len; lia).
  eexists; split; [done|].
  rewrite insert_take_drop by lia.
  assert (count s "1"%char =
          count (take (Z.to_nat i) s) "1"%char +
          ((if decide (c = "1"%char) then 1 else 0) +
           count (drop (S (Z.to_nat i)) s) "1"%char)) as ->.
  { rewrite <- (take_drop_middle s (Z.to_nat i) c) at 1 by done.
    by rewrite count_app, count_cons. }
  rewrite count_app, count_cons.
  assert (is_bit c) as [-> | ->]
    by (eapply Forall_lookup_1; [exact Hs|exact Hc]).
  - left. simpl. lia.
  - right. simpl. lia.
Qed.

(** C5. For every string [b], the empty one included, the parity check
    accepts [b] with its even-parity bit appended:
    [check_even_parity(add_even_parity(b))] is [True]. *)
Theorem check_add_even_parity (b : str) :
  check_even_parity (add_even_parity b) = true.
Proof.
  unfold check_even_parity. apply bool_decide_eq_true.
  apply add_even_parity_count.
Qed.

(** C6. For every string of bits [b] and every position [i] of
    [add_even_parity(b)], flipping exactly the bit at [i] makes
    [check_even_parity] return [False]. *)
Theorem parity_detects_single_flip (b : str) (i : Z) :
  bitstring b →
  0 ≤ i < len (add_even_parity b) →
  ∃ corrupted,
    flip_bit (add_even_parity b) i = Ok corrupted ∧
    check_even_parity corrupted = false.
Proof.
  intros Hb Hi.
  destruct (flip_bit_count (add_even_parity b) i) as (s' & Hflip & Hcount);
    [by apply add_even_parity_bitstring|done|].
  exists s'. split; [done|].
  unfold check_even_parity. apply bool_decide_eq_false.
  pose proof (add_even_parity_count b). zlia.
Qed.

Lemma parity_detects_single_flip_witness :
  ∃ corrupted,
    flip_bit (add_even_parity (lit "1011")) 2 = Ok corrupted ∧
    check_even_parity corrupted = false.
Proof.
  apply (parity_detects_single_flip (lit "1011") 2).
  - by_decide.
  - by_decide.
Defined.

(** ** Reading bits as a number *)

Lemma binary_value_bounds s : 0 ≤ binary_value s < 2 ^ len s.
Proof.
  induction s as [|c s IH]; simpl; [by vm_compute|].
  unfold len in *. simpl length.
  rewrite Nat2Z.inj_succ, Z.pow_succ_r by lia.
  unfold bit_value. destruct (decide _); lia.
Qed.

Lemma binary_value_zero s :
  bitstring s → (binary_value s = 0 ↔ Forall (λ c, c = "0"%char) s).
Proof.
  induction 1 as [|c s Hc Hs IH]; simpl; [done|].
  pose proof (binary_value_bounds s).
  assert (0 < 2 ^ Z.of_nat (length s)) by (apply Z.pow_pos_nonneg; lia).
  rewrite Forall_cons. unfold bit_value.
  destruct Hc as [-> | ->]; simpl.
  - rewrite <- IH. intuition lia.
  - split; [lia|]. intros [? _]. done.
Qed.

Lemma binary_value_app s1 s2 :
  binary_value (s1 ++ s2) = binary_value s1 * 2 ^ len s2 + binary_value s2.
Proof.
  induction s1 as [|c s1 IH]; simpl; [lia|].
  rewrite IH, length_app, Nat2Z.inj_add, Z.pow_add_r by lia.
  unfold len. lia.
Qed.

Lemma int_base2_from_bits acc s :
  bitstring s → int_base2_from acc s = Ok (acc * 2 ^ len s + binary_value s).
Proof.
  intros Hs. revert acc. induction Hs as [|c s Hc Hs IH]; intros acc; simpl.
  - f_equal. unfold len. simpl. lia.
  - unfold len in *. simpl length.
    rewrite Nat2Z.inj_succ, Z.pow_succ_r by lia.
    unfold bit_value. destruct Hc as [-> | ->]; simpl; rewrite IH; f_equal; lia.
Qed.

(** On a non-empty string of bits, [int(s, 2)] is the value of the bits. *)
Lemma int_base2_bits s :
  bitstring s → s ≠ [] → int_base2 s = Ok (binary_value s).
Proof.
  intros Hs Hne. destruct s as [|c s]; [done|].
  unfold int_base2. rewrite int_base2_from_bits by done. f_equal; lia.
Qed.

(** ** Binary formatting *)

Lemma pos_digits_acc p acc : pos_digits p acc = pos_digits p [] ++ acc.
Proof.
  revert acc. induction p as [p IH|p IH|]; intros acc; simpl; [| |done].
  - rewrite IH, (IH [_]). by rewrite <- app_assoc.
  - rewrite IH, (IH [_]). by rewrite <- app_assoc.
Qed.

Lemma pos_digits_bitstring p : bitstring (pos_digits p []).
Proof.
  induction p as [p IH|p IH|]; simpl.
  - rewrite pos_digits_acc. apply bitstring_app. split; [done|].
    by_decide.
  - rewrite pos_digits_acc. apply bitstring_app. split; [done|].
    by_decide.
  - by_decide.
Qed.

Lemma pos_digits_len p w :
  Z.pos p < 2 ^ w → 0 ≤ w → 0 < len (pos_digits p []) ≤ w.
Proof.
  revert w. induction p as [p IH|p IH|]; intros w Hp Hw; simpl.
  - rewrite pos_digits_acc, len_app. change (len [_]) with 1.
    assert (0 < w) by (destruct (decide (w = 0)) as [->|]; [simpl in Hp|]; lia).
    specialize (IH (w - 1)).
    replace w with (Z.succ (w - 1)) in Hp by lia.
    rewrite Z.pow_succ_r in Hp by lia. lia.
  - rewrite pos_digits_acc, len_app. change (len [_]) with 1.
    assert (0 < w) by (destruct (decide (w = 0)) as [->|]; [simpl in Hp|]; lia).
    specialize (IH (w - 1)).
    replace w with (Z.succ (w - 1)) in Hp by lia.
    rewrite Z.pow_succ_r in Hp by lia. lia.
  - change (len [_]) with 1.
    assert (0 < w) by (destruct (decide (w = 0)) as [->|]; [simpl in Hp|]; lia).
    lia.
Qed.

Lemma pos_digits_ones (n : nat) p :
  Z.pos p = Z.ones (Z.of_nat (S n)) →
  pos_digits p [] = replicate (S n) "1"%char.
Proof.
  revert p. induction n as [|n IH]; intros p Hp.
  - change (Z.ones _) with 1 in Hp. by replace p with 1%positive by lia.
  - assert (Z.ones (Z.of_nat (S (S n))) = 2 * Z.ones (Z.of_nat (S n)) + 1) as E.
    { rewrite !Z.ones_equiv, (Nat2Z.inj_succ (S n)), Z.pow_succ_r by lia. lia. }
    pose proof (Z.ones_equiv (Z.of_nat (S n))).
    assert (1 < 2 ^ Z.of_nat (S n)) by (apply Z.pow_gt_1; lia).
    destruct p as [p|p|];
      [rewrite Pos2Z.inj_xI in Hp|rewrite Pos2Z.inj_xO in Hp; lia|lia].
    change (pos_digits p~1 []) with (pos_digits p ["1"%char]).
    rewrite pos_digits_acc, (IH p) by lia.
    change ["1"%char] with (replicate 1 "1"%char).
    rewrite <- replicate_add. f_equal. lia.
Qed.

(** On a string of bits, [zfill] has no sign to step over. *)
Lemma zfill_bitstring s width :
  bitstring s → zfill s width = str_mul "0"%char (width - len s) ++ s.
Proof.
  intros Hs. unfold zfill.
  destruct Hs as [|c s [-> | ->] Hs]; [by rewrite app_nil_r| |];
    by destruct (decide _) as [[?|?]|_].
Qed.

Lemma format_b_bits v w :
  0 < w → 0 ≤ v < 2 ^ w →
  bitstring (format_b v) ∧ 0 < len (format_b v) ≤ w.
Proof.
  intros Hw Hv. destruct v as [|p|p]; [| |lia]; simpl.
  - split; [by_decide|]. change (len [_]) with 1. lia.
  - split; [apply pos_digits_bitstring|apply pos_digits_len; lia].
Qed.

(** A value that fits in [w > 0] bits is formatted as exactly [w] bits. *)
Lemma format_0b_bits v w :
  0 < w → 0 ≤ v < 2 ^ w →
  len (format_0b v w) = w ∧ bitstring (format_0b v w).
Proof.
  intros Hw Hv. destruct (format_b_bits v w) as [Hbits Hlen]; [done..|].
  unfold format_0b. rewrite zfill_bitstring by done. unfold str_mul.
  rewrite len_app, len_replicate. split; [lia|].
  apply bitstring_app. split; [apply bitstring_replicate; by left|done].
Qed.

Lemma format_0b_ones w :
  0 < w → format_0b (Z.ones w) w = replicate (Z.to_nat w) "1"%char.
Proof.
  intros Hw. destruct (Z.to_nat w) as [|n] eqn:E; [lia|].
  assert (w = Z.of_nat (S n)) as -> by lia.
  pose proof (Z.ones_equiv (Z.of_nat (S n))).
  assert (1 < 2 ^ Z.of_nat (S n)) by (apply Z.pow_gt_1; lia).
  destruct (Z.ones (Z.of_nat (S n))) as [|p|p] eqn:Hp; [lia| |lia].
  unfold format_0b. simpl format_b. rewrite (pos_digits_ones n p) by done.
  rewrite zfill_bitstring by (apply bitstring_replicate; by right).
  unfold str_mul. rewrite len_replicate.
  by replace (Z.to_nat _) with 0%nat by lia.
Qed.

(** ** The end-around carry *)

Section FoldCarry.

Variable w : Z.
Hypothesis w_pos : 0 < w.

Lemma max_value_pos : 0 < 2 ^ w - 1.
Proof. assert (1 < 2 ^ w) by (apply Z.pow_gt_1; lia). lia. Qed.

(** One pass of the loop takes [total >> w] times [max_value] off. *)
Lemma carry_pass t :
  0 ≤ t →
  Z.land t (2 ^ w - 1) + Z.shiftr t w = t - (t / 2 ^ w) * (2 ^ w - 1).
Proof.
  intros Ht. pose proof max_value_pos.
  replace (2 ^ w - 1) with (Z.ones w) at 1 by (rewrite Z.ones_equiv; lia).
  rewrite Z.land_ones, Z.shiftr_div_pow2 by lia.
  pose proof (Z.div_mod t (2 ^ w)). lia.
Qed.

Lemma end_around_small t : 0 ≤ t ≤ 2 ^ w - 1 → end_around (2 ^ w - 1) t = t.
Proof.
  intros Ht. unfold end_around. destruct (decide _); [lia|].
  rewrite Z.mod_small; lia.
Qed.

Lemma end_around_pass t :
  2 ^ w - 1 < t →
  end_around (2 ^ w - 1) (Z.land t (2 ^ w - 1) + Z.shiftr t w)
  = end_around (2 ^ w - 1) t.
Proof.
  intros Ht. pose proof max_value_pos. rewrite carry_pass by lia.
  assert (1 ≤ t / 2 ^ w) by (apply Z.div_le_lower_bound; lia).
  assert (t / 2 ^ w * 2 ^ w ≤ t)
    by (rewrite Z.mul_comm; apply Z.mul_div_le; lia).
  unfold end_around. repeat destruct (decide _); try lia.
  replace (t - t / 2 ^ w * (2 ^ w - 1) - 1)
    with (t - 1 + (- (t / 2 ^ w)) * (2 ^ w - 1)) by lia.
  by rewrite Z_mod_plus_full.
Qed.

Lemma fold_carry_loop_end_around passes t :
  0 ≤ t → t / (2 ^ w - 1) ≤ Z.of_nat passes →
  fold_carry_loop passes w (2 ^ w - 1) t = end_around (2 ^ w - 1) t.
Proof.
  pose proof max_value_pos as Hmax.
  revert t. induction passes as [|passes IH]; intros t Ht Hfuel; simpl.
  - assert (t / (2 ^ w - 1) = 0) as Hq
      by (pose proof (Z.div_pos t (2 ^ w - 1)); lia).
    apply Z.div_small_iff in Hq as [?|?]; [|lia..].
    by rewrite end_around_small by lia.
  - destruct (Z.gtb_spec t (2 ^ w - 1)) as [Hgt|Hle];
      [|by rewrite end_around_small by lia].
    assert (1 ≤ t / 2 ^ w) by (apply Z.div_le_lower_bound; lia).
    assert (t / 2 ^ w * 2 ^ w ≤ t)
      by (rewrite Z.mul_comm; apply Z.mul_div_le; lia).
    rewrite IH, end_around_pass; [done|lia|rewrite carry_pass by lia; lia|].
    rewrite carry_pass by lia.
    replace (t - t / 2 ^ w * (2 ^ w - 1))
      with (t + (- (t / 2 ^ w)) * (2 ^ w - 1)) by lia.
    rewrite Z.div_add by lia. lia.
Qed.

Lemma fold_carry_end_around t :
  0 ≤ t → fold_carry w (2 ^ w - 1) t = end_around (2 ^ w - 1) t.
Proof.
  intros Ht. pose proof max_value_pos. unfold fold_carry.
  apply fold_carry_loop_end_around; [done|].
  pose proof (Z.div_pos t (2 ^ w - 1)). lia.
Qed.

(** The model of the [while] loop satisfies the equation of the loop: the
    passes allowed are always enough. *)
Lemma fold_carry_unfold t :
  0 ≤ t →
  fold_carry w (2 ^ w - 1) t =
    if t >? 2 ^ w - 1
    then fold_carry w (2 ^ w - 1) (Z.land t (2 ^ w - 1) + Z.shiftr t w)
    else t.
Proof.
  intros Ht. pose proof max_value_pos. rewrite fold_carry_end_around by done.
  destruct (Z.gtb_spec t (2 ^ w - 1)); [|by apply end_around_small].
  assert (1 ≤ t / 2 ^ w) by (apply Z.div_le_lower_bound; lia).
  assert (t / 2 ^ w * 2 ^ w ≤ t)
    by (rewrite Z.mul_comm; apply Z.mul_div_le; lia).
  rewrite fold_carry_end_around, end_around_pass; [done|lia|].
  rewrite carry_pass by lia. lia.
Qed.

Lemma fold_carry_range t : 0 ≤ t → 0 ≤ fold_carry w (2 ^ w - 1) t ≤ 2 ^ w - 1.
Proof.
  intros Ht. pose proof max_value_pos. rewrite fold_carry_end_around by done.
  unfold end_around. destruct (decide _); [lia|].
  pose proof (Z.mod_pos_bound (t - 1) (2 ^ w - 1)). lia.
Qed.

(** Only the sum zero folds to zero. *)
Lemma fold_carry_zero t :
  0 ≤ t → fold_carry w (2 ^ w - 1) t = 0 ↔ t = 0.
Proof.
  intros Ht. pose proof max_value_pos. rewrite fold_carry_end_around by done.
  unfold end_around. destruct (decide _); [done|].
  pose proof (Z.mod_pos_bound (t - 1) (2 ^ w - 1)). lia.
Qed.

(** The one's complement of a word. *)
Lemma complement_word t :
  0 ≤ t ≤ 2 ^ w - 1 → Z.land (Z.lnot t) (2 ^ w - 1) = 2 ^ w - 1 - t.
Proof.
  intros Ht.
  replace (2 ^ w - 1) with (Z.ones w) at 1 by (rewrite Z.ones_equiv; lia).
  rewrite Z.land_ones by lia. unfold Z.lnot.
  replace (Z.pred (- t)) with (2 ^ w - 1 - t + (-1) * 2 ^ w) by lia.
  rewrite Z_mod_plus_full. apply Z.mod_small. lia.
Qed.

End FoldCarry.

(** ** The checksum *)

Lemma lshift_one w : 0 < w → lshift 1 w = Ok (2 ^ w).
Proof.
  intros Hw. unfold lshift.
  assert ((w <? 0) = false) as -> by lia.
  by rewrite Z.shiftl_1_l.
Qed.

(** The sum of the first [k] words of a string of bits: it is defined, is
    not negative, and is zero exactly when all those bits are zero. *)
Lemma sum_words_bits s w (k : nat) :
  bitstring s → 0 < w → Z.of_nat k * w ≤ len s →
  ∃ t, sum_words s w (Z.of_nat k) = Ok t ∧ 0 ≤ t ∧
       (t = 0 ↔ Forall (λ c, c = "0"%char) (take (Z.to_nat (Z.of_nat k * w)) s)).
Proof.
  intros Hs Hw. unfold sum_words.
  induction k as [|k IH]; intros Hk.
  - exists 0. split; [done|]. split; [done|]. by rewrite take_0.
  - destruct IH as (t & Ht & Ht0 & Hzero); [lia|].
    rewrite range_succ, for_each_app, Ht. simpl.
    rewrite slice_take_drop by lia.
    replace (Z.of_nat k * w + w - Z.of_nat k * w) with w by lia.
    set (word := take (Z.to_nat w) (drop (Z.to_nat (Z.of_nat k * w)) s)).
    assert (bitstring word) as Hword by (by apply Forall_take, Forall_drop).
    assert (length word = Z.to_nat w) as Hlen.
    { unfold word. rewrite length_take, length_drop. unfold len in Hk. lia. }
    rewrite int_base2_bits; [|done|intros E; rewrite E in Hlen; simpl in Hlen; lia].
    simpl. pose proof (binary_value_bounds word).
    eexists. split; [done|]. split; [lia|].
    replace (Z.to_nat (Z.of_nat (S k) * w))
      with (Z.to_nat (Z.of_nat k * w) + Z.to_nat w)%nat by lia.
    rewrite <- take_take_drop, Forall_app, <- Hzero.
    fold word. rewrite <- binary_value_zero by done. lia.
Qed.

Lemma sum_words_bits_Z s w k :
  bitstring s → 0 < w → 0 ≤ k → k * w ≤ len s →
  ∃ t, sum_words s w k = Ok t ∧ 0 ≤ t ∧
       (t = 0 ↔ Forall (λ c, c = "0"%char) (take (Z.to_nat (k * w)) s)).
Proof.
  intros Hs Hw Hk Hlen. rewrite <- (Z2Nat.id k) by done.
  apply sum_words_bits; [done..|lia].
Qed.

(** The checksum of a string of bits, for a positive width: one word of
    bits, all ones when every bit of the data is zero. *)
Lemma calculate_checksum_bits data w :
  bitstring data → 0 < w →
  ∃ c, calculate_checksum data w = Ok c ∧ len c = w ∧ bitstring c ∧
       (Forall (λ x, x = "0"%char) data → c = replicate (Z.to_nat w) "1"%char).
Proof.
  intros Hdata Hw. unfold calculate_checksum, mod_, floordiv.
  assert ((w =? 0) = false) as -> by lia. simpl.
  set (padded := if decide (len data `mod` w ≠ 0)
                 then data ++ str_mul "0"%char (w - len data `mod` w)
                 else data).
  pose proof (len_nonneg data) as Hlen.
  pose proof (Z.mod_pos_bound (len data) w Hw) as Hr.
  assert (bitstring padded ∧ len padded `mod` w = 0 ∧
          (Forall (λ x, x = "0"%char) data → Forall (λ x, x = "0"%char) padded))
    as (Hpadded & Hmult & Hzeros).
  { unfold padded. destruct (decide _) as [Hne|Heq].
    - split; [|split].
      + apply bitstring_app. split; [done|]. apply bitstring_replicate. by left.
      + unfold str_mul. rewrite len_app, len_replicate.
        rewrite Z2Nat.id by lia.
        replace (len data + (w - len data `mod` w))
          with (len data - len data `mod` w + 1 * w) by lia.
        rewrite Z_mod_plus_full, Zminus_mod_idemp_r, Z.sub_diag.
        by apply Z.mod_0_l; lia.
      + intros H0. apply Forall_app. split; [done|]. by apply Forall_replicate.
    - split; [done|]. split; [lia|done]. }
  pose proof (len_nonneg padded) as Hlenp.
  assert (0 ≤ len padded / w) by (apply Z.div_pos; lia).
  assert (len padded / w * w = len padded) as Hexact.
  { pose proof (Z.div_mod (len padded) w). lia. }
  destruct (sum_words_bits_Z padded w (len padded / w))
    as (t & -> & Ht & Hzero); [done|done|done|lia|].
  simpl. rewrite lshift_one by done. simpl.
  pose proof (fold_carry_range w Hw t Ht) as Hfold.
  rewrite complement_word by done.
  destruct (format_0b_bits (2 ^ w - 1 - fold_carry w (2 ^ w - 1) t) w)
    as [Hclen Hcbits]; [done|lia|].
  eexists. split; [done|]. split; [done|]. split; [done|].
  intros H0. assert (t = 0) as ->.
  { apply Hzero. apply Forall_take. by apply Hzeros. }
  rewrite (proj2 (fold_carry_zero w Hw 0 Ht)) by done.
  rewrite <- format_0b_ones by done. f_equal. rewrite Z.ones_equiv. lia.
Qed.

(** A frame made by [add_checksum] splits back into data and checksum. *)
Lemma checksum_frame_split (data c : str) w :
  len c = w → 0 < w →
  slice (data ++ c) None (Some (- w)) = data ∧
  slice (data ++ c) (Some (- w)) None = c.
Proof.
  intros <- Hc.
  assert (c ≠ []) by (intros ->; unfold len in Hc; simpl in Hc; lia).
  split; [by apply slice_init_app|by apply slice_last_app].
Qed.

Lemma add_checksum_frame data w c :
  calculate_checksum data w = Ok c → add_checksum data w = Ok (data ++ c).
Proof. intros Hc. unfold add_checksum. by rewrite Hc. Qed.

(** [verify_checksum] accepts no frame made by [add_checksum]: the words of
    such a frame never sum to zero, the checksum of all-zero data being all
    ones. *)
Lemma verify_checksum_frame data w c :
  bitstring data → 0 < w → calculate_checksum data w = Ok c →
  verify_checksum (data ++ c) w = Ok false.
Proof.
  intros Hdata Hw Hc.
  destruct (calculate_checksum_bits data w) as (c' & Hc' & Hlen & Hbits & Hones);
    [done..|].
  assert (c' = c) as -> by congruence.
  unfold verify_checksum.
  destruct (checksum_frame_split data c w) as [-> _]; [done..|].
  rewrite Hc. simpl. rewrite lshift_one by done. simpl.
  unfold floordiv. assert ((w =? 0) = false) as -> by lia. simpl.
  pose proof (len_nonneg data) as Hd. rewrite len_app, Hlen.
  replace (len data + w) with (len data + 1 * w) by lia.
  rewrite Z.div_add by lia.
  assert (0 ≤ len data / w) by (apply Z.div_pos; lia).
  pose proof (Z.div_mod (len data) w) as Hdm.
  pose proof (Z.mod_pos_bound (len data) w Hw) as Hr.
  destruct (sum_words_bits_Z (data ++ c) w (len data / w + 1))
    as (t & -> & Ht & Hzero);
    [by apply bitstring_app|done|lia|rewrite len_app; lia|].
  simpl. do 2 f_equal. apply bool_decide_eq_false.
  rewrite fold_carry_zero by done. rewrite Hzero.
  intros H0.
  assert (length data < Z.to_nat ((len data / w + 1) * w))%nat as Hover
    by (unfold len in *; lia).
  rewrite take_app_ge, Forall_app in H0 by lia.
  destruct H0 as [Hdata0 Hc0].
  rewrite (Hones Hdata0) in Hc0.
  destruct (Z.to_nat ((len data / w + 1) * w) - length data)%nat as [|m] eqn:E;
    [lia|].
  destruct (Z.to_nat w) as [|n] eqn:E'; [lia|].
  simpl in Hc0. by apply Forall_cons in Hc0 as [? _].
Qed.

(** [verify_checksum_simple] accepts every frame made by [add_checksum]. *)
Lemma verify_checksum_simple_frame data w c :
  bitstring data → 0 < w → calculate_checksum data w = Ok c →
  verify_checksum_simple (data ++ c) w = Ok (true, c, c).
Proof.
  intros Hdata Hw Hc.
  destruct (calculate_checksum_bits data w) as (c' & Hc' & Hlen & _);
    [done..|].
  assert (c' = c) as -> by congruence.
  unfold verify_checksum_simple.
  destruct (checksum_frame_split data c w) as [-> ->]; [done..|].
  rewrite Hc. simpl. by rewrite bool_decide_eq_true_2.
Qed.

(** The frame of the example of [demonstrate_checksum_example], "ABC", and
    what the two verifiers return on it. *)
Example add_checksum_ABC_8 :
  add_checksum (lit "010000010100001001000011") 8
  = Ok (lit "01000001010000100100001100111001").
Proof. vm_compute. reflexivity. Qed.

Example verify_checksum_ABC_8 :
  verify_checksum (lit "01000001010000100100001100111001") 8 = Ok false.
Proof. vm_compute. reflexivity. Qed.

Example verify_checksum_simple_ABC_8 :
  verify_checksum_simple (lit "01000001010000100100001100111001") 8
  = Ok (true, lit "00111001", lit "00111001").
Proof. vm_compute. reflexivity. Qed.

Example add_checksum_ABC_16 :
  add_checksum (lit "010000010100001001000011") 16
  = Ok (lit "0100000101000010010000110111101110111101").
Proof. vm_compute. reflexivity. Qed.

Example verify_checksum_ABC_16 :
  verify_checksum (lit "0100000101000010010000110111101110111101") 16
  = Ok false.
Proof. vm_compute. reflexivity. Qed.

Example verify_checksum_simple_ABC_16 :
  verify_checksum_simple (lit "0100000101000010010000110111101110111101") 16
  = Ok (true, lit "0111101110111101", lit "0111101110111101").
Proof. vm_compute. reflexivity. Qed.

(** The only frames [verify_checksum] accepts are those whose whole words
    are all zero, such as sixteen zero bits for a width of 8. *)
Example verify_checksum_zeros :
  verify_checksum (lit "0000000000000000") 8 = Ok true.
Proof. vm_compute. reflexivity. Qed.

(** C1. The claim is that [verify_checksum(add_checksum(data, w), w)] is
    [True] for every string of bits and every width in 8, 16, 32.  The code
    does the opposite: for every string of bits and every positive width,
    [verify_checksum] returns [False] on the frame made by [add_checksum],
    because it compares the folded sum with 0 where the sum of data and
    complement folds to all ones. *)
Theorem verify_checksum_rejects_add_checksum (data : str) (w : Z) :
  bitstring data → 0 < w →
  ∃ frame, add_checksum data w = Ok frame ∧
           verify_checksum frame w = Ok false.
Proof.
  intros Hdata Hw.
  destruct (calculate_checksum_bits data w) as (c & Hc & _); [done..|].
  exists (data ++ c). split; [by apply add_checksum_frame|].
  by apply verify_checksum_frame.
Qed.

Lemma verify_checksum_rejects_add_checksum_witness :
  ∃ frame,
    add_checksum (lit "010000010100001001000011") 8 = Ok frame ∧
    verify_checksum frame 8 = Ok false.
Proof.
  apply (verify_checksum_rejects_add_checksum
           (lit "010000010100001001000011") 8).
  - by_decide.
  - lia.
Defined.

(** C3. The claim is that the two verifiers agree on the frames made by
    [add_checksum].  On the code they disagree on every one of them: for
    every string of bits and every positive width, [verify_checksum]
    returns [False] and [verify_checksum_simple] returns [True] with the
    recomputed checksum equal to the received one. *)
Theorem verifiers_disagree_on_add_checksum (data : str) (w : Z) :
  bitstring data → 0 < w →
  ∃ frame c,
    add_checksum data w = Ok frame ∧
    verify_checksum frame w = Ok false ∧
    verify_checksum_simple frame w = Ok (true, c, c).
Proof.
  intros Hdata Hw.
  destruct (calculate_checksum_bits data w) as (c & Hc & _); [done..|].
  exists (data ++ c), c. split; [by apply add_checksum_frame|].
  split; [by apply verify_checksum_frame|by apply verify_checksum_simple_frame].
Qed.

Lemma verifiers_disagree_on_add_checksum_witness :
  ∃ frame c,
    add_checksum (lit "010000010100001001000011") 16 = Ok frame ∧
    verify_checksum frame 16 = Ok false ∧
    verify_checksum_simple frame 16 = Ok (true, c, c).
Proof.
  apply (verifiers_disagree_on_add_checksum
           (lit "010000010100001001000011") 16).
  - by_decide.
  - lia.
Defined.

(** C8. The checksum of the 24 bits of "ABC" for a width of 8 is
    ["00111001"], the complement 0x39 of 0x41 + 0x42 + 0x43 = 0xC6. *)
Theorem calculate_checksum_ABC :
  calculate_checksum (lit "010000010100001001000011") 8
  = Ok (lit "00111001").
Proof. vm_compute. reflexivity. Qed.

(** A width that is not positive makes [calculate_checksum] raise, and no
    exception it raises is called [InvalidWidth]: the claim C4 as stated
    fails for the width 0. *)
Lemma calculate_checksum_zero_width_not_InvalidWidth :
  ¬ ∃ e, calculate_checksum (lit "01") 0 = Raise e ∧
         exn_name e = "InvalidWidth"%string.
Proof. intros (e & He & Hname). vm_compute in He. by simplify_eq. Qed.

(** C4, amended. For every string and every width that is not positive,
    [calculate_checksum] raises a built-in exception: [ZeroDivisionError]
    for the width 0, at [len(data_bits) % checksum_bits], and [ValueError]
    for a negative width, at [1 << checksum_bits]. *)
Theorem calculate_checksum_nonpositive_width (data : str) (w : Z) :
  w ≤ 0 →
  calculate_checksum data w
  = Raise (if decide (w = 0) then ZeroDivisionError else ValueError).
Proof.
  intros Hw. unfold calculate_checksum, mod_, floordiv.
  destruct (decide (w = 0)) as [->|Hneg]; [done|].
  assert ((w =? 0) = false) as -> by lia. simpl.
  set (padded := if decide _ then _ else _).
  pose proof (len_nonneg padded).
  assert (len padded / w ≤ 0) as Hwords by (Z.div_mod_to_equations; nia).
  unfold sum_words. rewrite range_nil by done. simpl.
  unfold lshift. by assert ((w <? 0) = true) as -> by lia.
Qed.

Lemma calculate_checksum_nonpositive_width_witness :
  calculate_checksum (lit "0100000101000010") (-8) = Raise ValueError.
Proof.
  apply (calculate_checksum_nonpositive_width (lit "0100000101000010") (-8)).
  lia.
Defined.

(** ** Cells and characters *)

Lemma map_each_int_of_char s :
  bitstring s → map_each int_of_char s = Ok (bit_value <$> s).
Proof.
  induction 1 as [|c s [-> | ->] Hs IH]; simpl; [done|..]; by rewrite IH.
Qed.

Lemma cells_bit_value s : cells (bit_value <$> s).
Proof.
  apply Forall_fmap, Forall_true. intros c. unfold bit_value, is_cell; simpl.
  destruct (decide _); auto.
Qed.

Lemma join_str_of_int l : cells l → join (str_of_int <$> l) = bit_char <$> l.
Proof.
  induction 1 as [|z l Hz Hl IH]; [done|].
  change (join (str_of_int <$> z :: l))
    with (str_of_int z ++ join (str_of_int <$> l)).
  rewrite IH. by destruct Hz as [-> | ->].
Qed.

Lemma bit_char_bit_value s : bitstring s → bit_char <$> (bit_value <$> s) = s.
Proof.
  induction 1 as [|c s Hc Hs IH]; [done|].
  rewrite !fmap_cons, IH. by destruct Hc as [-> | ->].
Qed.

Lemma bit_value_bit_char l : cells l → bit_value <$> (bit_char <$> l) = l.
Proof.
  induction 1 as [|z l Hz Hl IH]; [done|].
  rewrite !fmap_cons, IH. by destruct Hz as [-> | ->].
Qed.

Lemma bitstring_bit_char l : bitstring (bit_char <$> l).
Proof.
  apply Forall_fmap, Forall_true. intros z. unfold bit_char, is_bit; simpl.
  destruct (decide _); auto.
Qed.

(** ** XOR of buffers *)

Lemma xor_cells_length a b :
  length a = length b → length (xor_cells a b) = length a.
Proof. intros H. unfold xor_cells. by rewrite length_zip_with_l_eq. Qed.

Lemma xor_cells_zeros a n :
  (length a ≤ n)%nat → xor_cells a (replicate n 0) = a.
Proof.
  revert n. induction a as [|x a IH]; intros [|n] Hn; simpl in *;
    [done|done|lia|].
  unfold xor_cells in *. simpl. rewrite Z.lxor_0_r, IH by lia. done.
Qed.

Lemma xor_cells_self a : xor_cells a a = replicate (length a) 0.
Proof.
  induction a as [|x a IH]; simpl; [done|].
  unfold xor_cells in *. simpl. by rewrite Z.lxor_nilpotent, IH.
Qed.

(** [(a ⊕ b) ⊕ c = (a ⊕ c) ⊕ b] *)
Lemma xor_cells_swap a b c :
  xor_cells (xor_cells a b) c = xor_cells (xor_cells a c) b.
Proof.
  unfold xor_cells. revert b c.
  induction a as [|x a IH]; intros [|y b] [|z c]; simpl; try done.
  rewrite IH. f_equal. by rewrite !Z.lxor_assoc, (Z.lxor_comm y z).
Qed.

Lemma xor_cells_app a1 a2 b1 b2 :
  length a1 = length b1 →
  xor_cells (a1 ++ a2) (b1 ++ b2) = xor_cells a1 b1 ++ xor_cells a2 b2.
Proof. intros H. unfold xor_cells. by apply zip_with_app. Qed.

Lemma xor_cells_lookup a b i x y :
  a !! i = Some x → b !! i = Some y →
  xor_cells a b !! i = Some (Z.lxor x y).
Proof.
  intros Ha Hb. unfold xor_cells. rewrite lookup_zip_with, Ha, Hb. done.
Qed.

Lemma xor_cells_cells a b : cells a → cells b → cells (xor_cells a b).
Proof.
  intros Ha. revert b.
  induction Ha as [|x a Hx Ha IH]; intros b Hb; [by constructor|].
  destruct Hb as [|y b Hy Hb]; [by constructor|].
  unfold xor_cells in *. simpl. constructor; [|by apply IH].
  destruct Hx as [-> | ->], Hy as [-> | ->]; unfold is_cell; simpl; auto.
Qed.

(** ** The shifted polynomial *)

Lemma shifted_length poly i m :
  (i + length poly ≤ m)%nat → length (shifted poly i m) = m.
Proof.
  intros H. unfold shifted. rewrite !length_app, !length_replicate. lia.
Qed.

Lemma shifted_lookup_before poly i m j :
  (j < i)%nat → shifted poly i m !! j = Some 0.
Proof.
  intros H. unfold shifted.
  rewrite lookup_app_l by (rewrite length_replicate; lia).
  by apply lookup_replicate_2.
Qed.

Lemma shifted_lookup_head poly i m x :
  poly !! 0%nat = Some x → shifted poly i m !! i = Some x.
Proof.
  intros H. unfold shifted.
  rewrite lookup_app_r by (rewrite length_replicate; lia).
  rewrite length_replicate, Nat.sub_diag. by apply lookup_app_l_Some.
Qed.

Lemma shifted_cells poly i m : cells poly → cells (shifted poly i m).
Proof.
  intros H. unfold shifted, cells. rewrite !Forall_app.
  split; [|split]; [apply Forall_replicate; by left|done|].
  apply Forall_replicate; by left.
Qed.

Lemma shifted_nil i m : (i ≤ m)%nat → shifted [] i m = replicate m 0.
Proof.
  intros H. unfold shifted. simpl. rewrite <- replicate_add. f_equal. lia.
Qed.

(** Extending the polynomial by one cell writes that cell at [i + k]. *)
Lemma shifted_take_S poly i m k p :
  poly !! k = Some p → (i + k < m)%nat →
  shifted (take (S k) poly) i m = <[(i + k)%nat := p]> (shifted (take k poly) i m).
Proof.
  intros Hp Hk. pose proof (lookup_lt_Some _ _ _ Hp) as Hlt.
  rewrite (take_S_r _ _ p) by done. unfold shifted.
  rewrite length_app, !length_take. simpl length.
  replace (m - i - k `min` length poly)%nat
    with (S (m - i - (k `min` length poly + 1)))%nat by lia.
  simpl replicate. rewrite <- !app_assoc. simpl.
  rewrite !app_assoc.
  replace (i + k)%nat
    with (length (replicate i 0%Z ++ take k poly) + 0)%nat
    by (rewrite length_app, length_replicate, length_take; lia).
  by rewrite insert_app_r.
Qed.

Lemma shifted_lookup_after poly i m j :
  (i + length poly ≤ j < m)%nat → shifted poly i m !! j = Some 0.
Proof.
  intros H. unfold shifted.
  rewrite lookup_app_r by (rewrite length_replicate; lia).
  rewrite lookup_app_r by (rewrite length_replicate; lia).
  apply lookup_replicate_2. rewrite length_replicate. lia.
Qed.

(** ** The loops of the division engine *)

Lemma range_to_nat z : range z = range (Z.of_nat (Z.to_nat z)).
Proof. unfold range, seqZ. by rewrite Nat2Z.id. Qed.

(** The inner loop, after [k] of its passes, has XORed the first [k] cells
    of the polynomial into the window at [i]. *)
Lemma xor_window_prefix poly data (i k : nat) :
  (k ≤ length poly)%nat → (i + length poly ≤ length data)%nat →
  for_each (range (Z.of_nat k)) (xor_at poly (Z.of_nat i)) data
  = Ok (xor_cells data (shifted (take k poly) i (length data))).
Proof.
  intros Hk Hi. induction k as [|k IH].
  - rewrite range_nil by lia. simpl.
    by rewrite shifted_nil, xor_cells_zeros by lia.
  - rewrite range_succ, for_each_app, IH by lia. simpl.
    destruct (lookup_lt_is_Some_2 poly k) as [p Hp]; [lia|].
    destruct (lookup_lt_is_Some_2 data (i + k)) as [d Hd]; [lia|].
    set (D := xor_cells data (shifted (take k poly) i (length data))).
    assert (D !! (i + k)%nat = Some d) as HD.
    { unfold D. rewrite (xor_cells_lookup _ _ _ d 0), Z.lxor_0_r; [done..|].
      apply shifted_lookup_after. rewrite length_take. lia. }
    assert (length D = length data) as HlenD.
    { unfold D. apply xor_cells_length. rewrite shifted_length; [done|].
      rewrite length_take. lia. }
    unfold xor_at.
    replace (Z.of_nat i + Z.of_nat k) with (Z.of_nat (i + k)) by lia.
    rewrite (getitem_lookup D _ d) by (rewrite ?Nat2Z.id; done || lia).
    simpl. rewrite (getitem_lookup poly _ p) by (rewrite ?Nat2Z.id; done || lia).
    simpl. rewrite setitem_insert by (unfold len; lia).
    rewrite Nat2Z.id. f_equal.
    rewrite (shifted_take_S _ _ _ _ p) by (done || lia).
    unfold D, xor_cells. by rewrite insert_zip_with, (list_insert_id data).
Qed.

Section Division.

Variable poly : list Z.
Hypothesis poly_cells_ok : cells poly.
Hypothesis poly_head : poly !! 0%nat = Some 1.

Lemma poly_length_pos : (0 < length poly)%nat.
Proof. by apply lookup_lt_Some in poly_head. Qed.

Lemma division_pass_length data i :
  length (division_pass poly data i) = length data.
Proof.
  unfold division_pass. destruct (decide _); [|done].
  unfold xor_cells, shifted. apply length_zip_with_l.
  rewrite !length_app, !length_replicate. lia.
Qed.

Lemma divide_S data k :
  divide poly data (S k) = division_pass poly (divide poly data k) k.
Proof. unfold divide. by rewrite seq_S, fold_left_app. Qed.

Lemma divide_length data k : length (divide poly data k) = length data.
Proof.
  induction k as [|k IH]; [done|].
  by rewrite divide_S, division_pass_length.
Qed.

Lemma division_pass_cells data i :
  cells data → cells (division_pass poly data i).
Proof.
  intros Hdata. unfold division_pass. destruct (decide _); [|done].
  by apply xor_cells_cells, shifted_cells.
Qed.

Lemma divide_cells data k : cells data → cells (divide poly data k).
Proof.
  intros Hdata. induction k as [|k IH]; [done|].
  rewrite divide_S. by apply division_pass_cells.
Qed.

(** One pass of the outer loop of the engine. *)
Lemma division_step_pass data (i : nat) :
  (i + length poly ≤ length data)%nat →
  division_step poly (len poly) data (Z.of_nat i)
  = Ok (division_pass poly data i).
Proof.
  intros Hi. pose proof poly_length_pos.
  destruct (lookup_lt_is_Some_2 data i) as [d Hd]; [lia|].
  unfold division_step, division_pass.
  rewrite (getitem_lookup data _ d) by (rewrite ?Nat2Z.id; done || lia).
  simpl. rewrite Hd. destruct (decide (d = 1)) as [->|Hne].
  - rewrite decide_True by done. unfold len.
    rewrite xor_window_prefix by (done || lia).
    by rewrite take_ge by lia.
  - rewrite decide_False by congruence. done.
Qed.

(** The outer loop of the engine. *)
Lemma division_loop data (k : nat) :
  ((0 < k)%nat → (k + length poly ≤ S (length data))%nat) →
  for_each (range (Z.of_nat k)) (division_step poly (len poly)) data
  = Ok (divide poly data k).
Proof.
  intros Hk. induction k as [|k IH].
  - by rewrite range_nil by lia.
  - rewrite range_succ, for_each_app, IH by lia. simpl.
    rewrite division_step_pass by (rewrite divide_length; lia).
    by rewrite divide_S.
Qed.

(** After [k] passes the first [k] cells are zero. *)
Lemma divide_prefix_zero data (k j : nat) :
  cells data → (k + length poly ≤ S (length data))%nat → (j < k)%nat →
  divide poly data k !! j = Some 0.
Proof.
  intros Hdata. pose proof poly_length_pos.
  revert j. induction k as [|k IH]; intros j Hk Hj; [lia|].
  rewrite divide_S. unfold division_pass.
  pose proof (divide_length data k) as Hlen.
  destruct (lookup_lt_is_Some_2 (divide poly data k) k) as [d Hd]; [lia|].
  destruct (decide _) as [Hone|Hnot].
  - destruct (decide (j = k)) as [->|Hne].
    + by rewrite (xor_cells_lookup _ _ _ 1 1);
        [|done|apply shifted_lookup_head].
    + by rewrite (xor_cells_lookup _ _ _ 0 0);
        [|apply IH; lia|apply shifted_lookup_before; lia].
  - destruct (decide (j = k)) as [->|Hne]; [|apply IH; lia].
    rewrite Hd. f_equal.
    assert (is_cell d) as [->| ->]
      by (eapply Forall_lookup_1; [by apply divide_cells|done]); [done|].
    by rewrite Hd in Hnot.
Qed.

(** The division is linear in the cells that it does not visit: a buffer
    [b] whose first [k] cells are zero passes through [k] passes. *)
Lemma divide_linear data b (k : nat) :
  length b = length data →
  (k + length poly ≤ S (length data))%nat →
  (∀ j, (j < k)%nat → b !! j = Some 0) →
  divide poly (xor_cells data b) k = xor_cells (divide poly data k) b.
Proof.
  intros Hb. pose proof poly_length_pos.
  induction k as [|k IH]; intros Hk Hzero; [done|].
  rewrite !divide_S, IH by (lia || (intros; apply Hzero; lia)).
  pose proof (divide_length data k) as Hlen.
  destruct (lookup_lt_is_Some_2 (divide poly data k) k) as [d Hd]; [lia|].
  unfold division_pass.
  rewrite (xor_cells_lookup _ _ _ d 0), Z.lxor_0_r, Hd;
    [|done|apply Hzero; lia].
  rewrite xor_cells_length by lia.
  destruct (decide _); [|done]. apply xor_cells_swap.
Qed.

End Division.

(** ** CRC-32 *)

Lemma poly_bits_bitstring : bitstring poly_bits.
Proof. by_decide. Qed.

Lemma poly_cells_cells : cells poly_cells.
Proof. apply cells_bit_value. Qed.

Lemma poly_cells_head : poly_cells !! 0%nat = Some 1.
Proof. reflexivity. Qed.

Lemma poly_cells_length : length poly_cells = 33%nat.
Proof. reflexivity. Qed.

(** The engine on a string of bits, with the generator polynomial: the
    buffer is divided over [len(data) - 32] positions (none when the data
    is shorter than the polynomial) and its last 32 cells are printed. *)
Lemma crc_division_engine_bits s :
  bitstring s →
  _crc_division_engine s poly_bits
  = Ok (bit_char <$>
          slice (divide poly_cells (bit_value <$> s) (Z.to_nat (len s - 32)))
            (Some (- 32)) None).
Proof.
  intros Hs. unfold _crc_division_engine.
  rewrite (map_each_int_of_char poly_bits) by apply poly_bits_bitstring.
  rewrite (map_each_int_of_char s) by done.
  cbn [mbind result_bind bind]. fold poly_cells.
  unfold division_range. rewrite range_to_nat.
  assert (len (bit_value <$> s) = len s) as Hlen
    by (unfold len; by rewrite length_fmap).
  rewrite Hlen.
  replace (len s - len poly_cells + 1) with (len s - 32)
    by (change (len poly_cells) with 33; lia).
  rewrite (division_loop poly_cells poly_cells_head).
  - cbn [mbind result_bind bind]. change (len poly_cells - 1) with 32.
    f_equal. apply join_str_of_int. unfold slice.
    apply Forall_take, Forall_drop.
    apply (divide_cells _ poly_cells_cells), cells_bit_value.
  - rewrite poly_cells_length, length_fmap. unfold len. lia.
Qed.

Lemma xor_cells_comm a b : xor_cells a b = xor_cells b a.
Proof.
  unfold xor_cells. revert b.
  induction a as [|x a IH]; intros [|y b]; simpl; try done.
  by rewrite IH, Z.lxor_comm.
Qed.

Lemma take_zeros (l : list Z) (m : nat) :
  (m ≤ length l)%nat → (∀ j, (j < m)%nat → l !! j = Some 0) →
  take m l = replicate m 0.
Proof.
  intros Hm Hzero. apply (list_eq_same_length _ _ m).
  - by rewrite length_replicate.
  - rewrite length_take. lia.
  - intros j x y Hj. rewrite lookup_take_lt, Hzero, lookup_replicate_2 by lia.
    congruence.
Qed.

Lemma crc_cells_length data : length (crc_cells data) = 32%nat.
Proof.
  unfold crc_cells.
  rewrite length_drop, divide_length, length_app, length_fmap, length_replicate.
  lia.
Qed.

Lemma crc_cells_cells data : cells (crc_cells data).
Proof.
  unfold crc_cells. apply Forall_drop, (divide_cells _ poly_cells_cells).
  apply Forall_app. split; [apply cells_bit_value|].
  apply Forall_replicate. by left.
Qed.

(** The division of the padded data leaves zeros over the data and the
    remainder in the padding. *)
Lemma divide_padded data :
  divide poly_cells ((bit_value <$> data) ++ replicate 32 0) (length data)
  = replicate (length data) 0 ++ crc_cells data.
Proof.
  set (padded := (bit_value <$> data) ++ replicate 32 0).
  assert (length padded = (length data + 32)%nat) as Hlen
    by (unfold padded; rewrite length_app, length_fmap, length_replicate; lia).
  rewrite <- (take_drop (length data) (divide poly_cells padded (length data)))
    at 1.
  unfold crc_cells. fold padded. f_equal.
  apply take_zeros; [rewrite divide_length; lia|].
  intros j Hj.
  apply (divide_prefix_zero _ poly_cells_cells poly_cells_head);
    [|rewrite poly_cells_length; lia|lia].
  apply Forall_app. split; [apply cells_bit_value|].
  apply Forall_replicate. by left.
Qed.

Lemma generate_crc_cells data :
  bitstring data → generate_crc data = Ok (bit_char <$> crc_cells data).
Proof.
  intros Hdata. unfold generate_crc. fold poly_bits.
  change (len poly_bits - 1) with 32.
  assert (bitstring (data ++ str_mul "0"%char 32)) as Hpadded.
  { apply bitstring_app. split; [done|]. apply bitstring_replicate. by left. }
  rewrite crc_division_engine_bits by done.
  cbn [mbind result_bind bind]. f_equal.
  unfold str_mul. change (Z.to_nat 32) with 32%nat.
  rewrite fmap_app, fmap_replicate. change (bit_value "0") with 0.
  rewrite len_app, len_replicate.
  replace (Z.to_nat (len data + Z.of_nat 32 - 32)) with (length data)
    by (unfold len; lia).
  set (D := divide _ _ _).
  assert (length D = (length data + 32)%nat) as Hlen.
  { unfold D.
    rewrite divide_length, length_app, length_fmap, length_replicate. lia. }
  rewrite slice_last_drop by (unfold len; lia).
  replace (Z.to_nat (len D + -32)) with (length data) by (unfold len; lia).
  fold D. change (drop (length data) D) with (crc_cells data).
  rewrite zfill_bitstring by apply bitstring_bit_char.
  unfold str_mul, len. rewrite length_fmap, crc_cells_length. done.
Qed.

Lemma check_crc_generated data :
  bitstring data → check_crc (data ++ (bit_char <$> crc_cells data)) = Ok 0.
Proof.
  intros Hdata. unfold check_crc. fold poly_bits.
  rewrite crc_division_engine_bits
    by (apply bitstring_app; split; [done|apply bitstring_bit_char]).
  cbn [mbind result_bind bind].
  rewrite fmap_app, bit_value_bit_char by apply crc_cells_cells.
  rewrite len_app. unfold len at 2. rewrite length_fmap, crc_cells_length.
  replace (Z.to_nat (len data + Z.of_nat 32 - 32)) with (length data)
    by (unfold len; lia).
  set (padded := (bit_value <$> data) ++ replicate 32 0).
  assert (length padded = (length data + 32)%nat) as Hlen
    by (unfold padded; rewrite length_app, length_fmap, length_replicate; lia).
  pose proof (divide_padded data) as HR. fold padded in HR.
  assert ((bit_value <$> data) ++ crc_cells data
          = xor_cells padded (divide poly_cells padded (length data))) as ->.
  { rewrite HR. unfold padded.
    rewrite xor_cells_app by (by rewrite length_fmap, length_replicate).
    rewrite xor_cells_zeros by (by rewrite length_fmap).
    rewrite xor_cells_comm, xor_cells_zeros; [done|].
    by rewrite crc_cells_length. }
  rewrite (divide_linear _ poly_cells_head).
  - rewrite xor_cells_self, divide_length, Hlen.
    rewrite slice_last_drop by (rewrite len_replicate; lia).
    rewrite len_replicate, drop_replicate.
    replace (length data + 32 - Z.to_nat (Z.of_nat (length data + 32) + -32))%nat
      with 32%nat by lia.
    reflexivity.
  - by rewrite divide_length.
  - rewrite poly_cells_length. lia.
  - intros j Hj. rewrite HR. rewrite lookup_app_l by (by rewrite length_replicate).
    by apply lookup_replicate_2.
Qed.

(** C2. For every string of bits [data], [generate_crc(data)] returns a
    string [crc] and [check_crc(data + crc)] returns the integer 0. *)
Theorem check_crc_generate_crc (data : str) :
  bitstring data →
  ∃ crc, generate_crc data = Ok crc ∧ check_crc (data ++ crc) = Ok 0.
Proof.
  intros Hdata. exists (bit_char <$> crc_cells data).
  split; [by apply generate_crc_cells|by apply check_crc_generated].
Qed.

Lemma check_crc_generate_crc_witness :
  ∃ crc, generate_crc (lit "0100000101000010") = Ok crc ∧
         check_crc (lit "0100000101000010" ++ crc) = Ok 0.
Proof.
  apply (check_crc_generate_crc (lit "0100000101000010")). by_decide.
Defined.

(** C7. For every string of bits [data], [generate_crc(data)] is a string
    of exactly 32 bits: the last 32 cells of the division buffer, one
    character per cell, the leading zero cells included. *)
Theorem generate_crc_32_bits (data : str) :
  bitstring data →
  ∃ crc, generate_crc data = Ok crc ∧ len crc = 32 ∧ bitstring crc ∧
         bit_value <$> crc = crc_cells data.
Proof.
  intros Hdata. exists (bit_char <$> crc_cells data).
  split; [by apply generate_crc_cells|]. split; [|split].
  - unfold len. by rewrite length_fmap, crc_cells_length.
  - apply bitstring_bit_char.
  - apply bit_value_bit_char, crc_cells_cells.
Qed.

Lemma generate_crc_32_bits_witness :
  ∃ crc, generate_crc (lit "1") = Ok crc ∧ len crc = 32 ∧ bitstring crc ∧
         bit_value <$> crc = crc_cells (lit "1").
Proof. apply (generate_crc_32_bits (lit "1")). by_decide. Defined.

(** A remainder with five leading zeros, and the remainder of the empty
    data. *)
Example generate_crc_1 :
  generate_crc (lit "1") = Ok (lit "00000100110000010001110110110111").
Proof. vm_compute. reflexivity. Qed.

Example generate_crc_empty :
  generate_crc (lit "") = Ok (lit "00000000000000000000000000000000").
Proof. vm_compute. reflexivity. Qed.

Example check_crc_1 :
  check_crc (lit "100000100110000010001110110110111") = Ok 0.
Proof. vm_compute. reflexivity. Qed.

(** C10. For a string of bits shorter than 33 bits, the outer loop of the
    division visits no position (no XOR step is made), and [check_crc]
    returns the value of the bits of the frame read in binary when the frame
    is not empty, and raises [ValueError] when it is empty. *)
Theorem check_crc_short_frame (frame : str) :
  bitstring frame → len frame < 33 →
  division_range (bit_value <$> frame) poly_cells = [] ∧
  (frame ≠ [] → check_crc frame = Ok (binary_value frame)) ∧
  (frame = [] → check_crc frame = Raise ValueError).
Proof.
  intros Hframe Hshort. split; [|split].
  - unfold division_range. apply range_nil.
    change (len poly_cells) with 33. unfold len in *.
    rewrite length_fmap. lia.
  - intros Hne. unfold check_crc. fold poly_bits.
    rewrite crc_division_engine_bits by done.
    cbn [mbind result_bind bind].
    replace (Z.to_nat (len frame - 32)) with 0%nat by lia.
    change (divide poly_cells (bit_value <$> frame) 0) with (bit_value <$> frame).
    rewrite slice_last_short by (unfold len in *; rewrite ?length_fmap; lia).
    rewrite bit_char_bit_value by done.
    by apply int_base2_bits.
  - intros ->. reflexivity.
Qed.

Lemma check_crc_short_frame_witness :
  division_range (bit_value <$> lit "101") poly_cells = [] ∧
  (lit "101" ≠ [] → check_crc (lit "101") = Ok (binary_value (lit "101"))) ∧
  (lit "101" = [] → check_crc (lit "101") = Raise ValueError).
Proof.
  apply (check_crc_short_frame (lit "101")).
  - by_decide.
  - vm_compute. reflexivity.
Defined.

(** ** Decoding text *)

(** The groups of eight bits are the slices [s[8k : 8k + 8]] that fit. *)
Lemma groups_of_8_slices (q : nat) s :
  (8 * q ≤ length s < 8 * q + 8)%nat →
  groups_of_8 s = (λ k, take 8 (drop (8 * k) s)) <$> seq 0 q.
Proof.
  revert s. induction q as [|q IH]; intros s Hs.
  - do 8 (destruct s as [|? s]; [done|]). simpl in Hs. lia.
  - do 8 (destruct s as [|? s]; [simpl in Hs; lia|]).
    change (groups_of_8 (a :: a0 :: a1 :: a2 :: a3 :: a4 :: a5 :: a6 :: s))
      with ([a; a0; a1; a2; a3; a4; a5; a6] :: groups_of_8 s).
    rewrite (IH s) by (simpl in Hs; lia).
    rewrite <- cons_seq, fmap_cons, <- fmap_S_seq, <- list_fmap_compose.
    f_equal. apply list_fmap_ext. intros _ k _. unfold compose.
    replace (8 * S k)%nat with (8 + 8 * k)%nat by lia.
    by rewrite <- drop_drop.
Qed.

Lemma groups_of_8_bits s :
  bitstring s →
  Forall (λ g, bitstring g ∧ length g = 8%nat) (groups_of_8 s).
Proof.
  intros Hs.
  rewrite (groups_of_8_slices (length s / 8) s)
    by (pose proof (Nat.div_mod_eq (length s) 8);
        pose proof (Nat.mod_upper_bound (length s) 8); lia).
  apply Forall_fmap, Forall_seq. intros k Hk. simpl. split.
  - by apply Forall_take, Forall_drop.
  - rewrite length_take, length_drop.
    pose proof (Nat.div_mod_eq (length s) 8). lia.
Qed.

(** The slices that [binary_to_text] cuts from the truncated string. *)
Lemma binary_to_text_chars (q : nat) (t : str) :
  length t = (8 * q)%nat →
  (λ i, slice t (Some i) (Some (i + 8))) <$> range3 0 (len t) 8
  = groups_of_8 t.
Proof.
  intros Ht. rewrite (groups_of_8_slices q t) by lia.
  unfold range3, seqZ.
  replace (Z.to_nat ((len t - 0 + 8 - 1) / 8)) with q
    by (unfold len; rewrite Ht; zlia).
  rewrite <- !list_fmap_compose. apply Forall_fmap_ext, Forall_seq.
  intros k Hk. simpl.
  rewrite slice_take_drop by (unfold len; lia).
  f_equal; [lia|]. f_equal. lia.
Qed.

Lemma chr_byte v : 0 ≤ v < 256 → chr v = Ok (ascii_of_N (Z.to_N v)).
Proof.
  intros Hv. unfold chr.
  by assert ((0 <=? v) && (v <? 256) = true) as ->
    by (apply andb_true_intro; split; lia).
Qed.

(** The decoding loop keeps the characters of the groups that are not
    zero. *)
Lemma decode_groups (chars : list str) (out : str) :
  Forall (λ g, bitstring g ∧ length g = 8%nat) chars →
  for_each chars
    (λ out char,
       v ← int_base2 char;
       if decide (v ≠ 0) then
         v' ← int_base2 char;
         c ← chr v';
         Ok (out ++ [c])
       else Ok out)
    out
  = Ok (out ++ ((λ v, ascii_of_N (Z.to_N v))
                  <$> filter (λ v, v ≠ 0) (binary_value <$> chars))).
Proof.
  intros Hchars. revert out.
  induction Hchars as [|g chars [Hg Hlen] Hchars IH]; intros out.
  - simpl. by rewrite app_nil_r.
  - assert (g ≠ []) as Hne by (intros ->; done).
    pose proof (binary_value_bounds g) as Hv. unfold len in Hv.
    rewrite Hlen in Hv. change (2 ^ Z.of_nat 8) with 256 in Hv.
    cbn [for_each]. rewrite int_base2_bits by done.
    cbn [mbind result_bind bind]. rewrite fmap_cons.
    destruct (decide (binary_value g ≠ 0)) as [Hnz|Hz].
    + rewrite chr_byte by done.
      cbn [mbind result_bind bind]. rewrite IH, filter_cons_True by done.
      by rewrite fmap_cons, <- app_assoc.
    + cbn [bind]. rewrite IH, filter_cons_False by done. done.
Qed.

(** C9. For every string of bits [s], [binary_to_text(s)] drops the
    trailing group of fewer than 8 bits, reads each remaining group of 8
    bits most significant bit first, and returns the characters of the
    groups whose value is not zero. *)
Theorem binary_to_text_decodes (s : str) :
  bitstring s → binary_to_text s = Ok (binary_to_text_spec s).
Proof.
  intros Hs. unfold binary_to_text, binary_to_text_spec, mod_.
  cbn [Z.eqb mbind result_bind bind].
  set (q := (length s / 8)%nat).
  pose proof (Nat.div_mod_eq (length s) 8) as Hdm.
  pose proof (Nat.mod_upper_bound (length s) 8) as Hmod.
  set (t := if decide (len s `mod` 8 ≠ 0)
            then slice s None (Some (len s - len s `mod` 8)) else s).
  assert (t = take (8 * q) s) as Ht.
  { unfold t, q. destruct (decide _) as [Hne|Heq].
    - unfold slice, clamp. cbv zeta.
      assert ((len s - len s `mod` 8 <? 0) = false) as ->
        by (unfold len; zlia).
      rewrite drop_0. f_equal. unfold len.
      rewrite <- (Nat2Z.inj_mod _ 8), <- Nat2Z.inj_sub by lia. lia.
    - rewrite take_ge; [done|]. apply dec_stable in Heq. unfold len in Heq.
      rewrite <- (Nat2Z.inj_mod _ 8) in Heq. lia. }
  assert (length t = (8 * q)%nat) as Hlen
    by (rewrite Ht, length_take; unfold q; lia).
  rewrite (binary_to_text_chars q t) by done.
  assert (groups_of_8 t = groups_of_8 s) as ->.
  { rewrite (groups_of_8_slices q t), (groups_of_8_slices q s)
      by (unfold q in *; lia).
    apply Forall_fmap_ext, Forall_seq. intros k Hk. simpl.
    rewrite Ht, take_drop_commute, take_take, take_drop_commute.
    do 2 f_equal. lia. }
  rewrite decode_groups by (by apply groups_of_8_bits). done.
Qed.

Lemma binary_to_text_decodes_witness :
  binary_to_text (lit "0100000100000000010000101")
  = Ok (binary_to_text_spec (lit "0100000100000000010000101")).
Proof.
  apply (binary_to_text_decodes (lit "0100000100000000010000101")). by_decide.
Defined.

(** * Further properties of the code *)

(** ** Parity: what it misses and how it composes *)

Lemma flip_bit_bits s i :
  bitstring s → 0 ≤ i < len s →
  ∃ s', flip_bit s i = Ok s' ∧ bitstring s' ∧ len s' = len s.
Proof.
  intros Hs Hi. unfold len in Hi.
  destruct (lookup_lt_is_Some_2 s (Z.to_nat i)) as [c Hc]; [lia|].
  unfold flip_bit. rewrite (getitem_lookup _ _ c) by (done || lia).
  cbn [mbind result_bind bind]. rewrite setitem_insert by (unfold len; lia).
  eexists; split; [done|]. split.
  - apply Forall_insert; [done|]. destruct (decide _); [by right|by left].
  - unfold len. by rewrite length_insert.
Qed.

(** What [flip_bit] returns, as an update of the list. *)
Lemma flip_bit_insert s j c :
  0 ≤ j → s !! Z.to_nat j = Some c →
  flip_bit s j = Ok (<[Z.to_nat j := flipped c]> s).
Proof.
  intros Hj Hc. pose proof (lookup_lt_Some _ _ _ Hc).
  unfold flip_bit. rewrite (getitem_lookup _ _ c) by done.
  cbn [mbind result_bind bind]. by rewrite setitem_insert by (unfold len; lia).
Qed.

(** Two flips, at the same position or at two positions, leave the frame
    accepted: an even number of flipped bits is never detected. *)
Theorem parity_misses_double_flip (b : str) (i j : Z) :
  bitstring b →
  0 ≤ i < len (add_even_parity b) →
  0 ≤ j < len (add_even_parity b) →
  ∃ once twice,
    flip_bit (add_even_parity b) i = Ok once ∧
    flip_bit once j = Ok twice ∧
    check_even_parity twice = true.
Proof.
  intros Hb Hi Hj.
  pose proof (add_even_parity_bitstring b Hb) as Hbits.
  destruct (flip_bit_bits _ i Hbits Hi) as (s1 & H1 & Hbits1 & Hlen1).
  destruct (flip_bit_count _ i Hbits Hi) as (s1' & H1' & Hcount1).
  assert (s1' = s1) as -> by congruence.
  destruct (flip_bit_count s1 j Hbits1) as (s2 & H2 & Hcount2); [lia|].
  exists s1, s2. split; [done|]. split; [done|].
  unfold check_even_parity. apply bool_decide_eq_true.
  pose proof (add_even_parity_count b). zlia.
Qed.

Lemma parity_misses_double_flip_witness :
  ∃ once twice,
    flip_bit (add_even_parity (lit "1011")) 0 = Ok once ∧
    flip_bit once 4 = Ok twice ∧
    check_even_parity twice = true.
Proof.
  apply (parity_misses_double_flip (lit "1011") 0 4); by_decide.
Defined.

(** The parity of a concatenation: it is even exactly when the two parts
    have the same parity. *)
Theorem check_even_parity_app (s1 s2 : str) :
  check_even_parity (s1 ++ s2)
  = Bool.eqb (check_even_parity s1) (check_even_parity s2).
Proof.
  unfold check_even_parity. rewrite count_app.
  pose proof (count_nonneg s1 "1"%char). pose proof (count_nonneg s2 "1"%char).
  repeat case_bool_decide; simpl; try done; zlia.
Qed.

(** ** Text to bits and back *)

Lemma binary_value_zeros n : binary_value (replicate n "0"%char) = 0.
Proof. induction n as [|n IH]; simpl; [done|]. rewrite IH. done. Qed.

Lemma binary_value_pos_digits p : binary_value (pos_digits p []) = Z.pos p.
Proof.
  induction p as [p IH|p IH|]; simpl; [| |done];
    rewrite pos_digits_acc, binary_value_app, IH.
  - change (binary_value ["1"%char]) with 1. change (len [_]) with 1. lia.
  - change (binary_value ["0"%char]) with 0. change (len [_]) with 1. lia.
Qed.

(** Formatting a value that fits and reading it back gives the value. *)
Lemma binary_value_format_0b v w :
  0 < w → 0 ≤ v < 2 ^ w → binary_value (format_0b v w) = v.
Proof.
  intros Hw Hv. destruct (format_b_bits v w) as [Hbits _]; [done..|].
  unfold format_0b. rewrite zfill_bitstring by done. unfold str_mul.
  rewrite binary_value_app, binary_value_zeros.
  destruct v as [|p|p]; [done| |lia]. simpl. apply binary_value_pos_digits.
Qed.

Lemma ord_range c : 0 ≤ ord c < 256.
Proof. unfold ord. pose proof (N_ascii_bounded c). lia. Qed.

Lemma groups_of_8_cons (g s : str) :
  length g = 8%nat → groups_of_8 (g ++ s) = g :: groups_of_8 s.
Proof.
  intros Hg. do 8 (destruct g as [|? g]; [done|]). by destruct g.
Qed.

(** On a whole number of bytes nothing is cut off. *)
Lemma binary_to_text_whole_bytes (q : nat) (t : str) :
  bitstring t → length t = (8 * q)%nat →
  binary_to_text t = Ok (binary_to_text_spec t).
Proof.
  intros Ht Hlen. unfold binary_to_text, binary_to_text_spec, mod_.
  cbn [Z.eqb mbind result_bind bind].
  assert (len t `mod` 8 = 0) as -> by (unfold len; rewrite Hlen; zlia).
  rewrite decide_False by lia.
  rewrite (binary_to_text_chars q t) by done.
  by rewrite decode_groups by (by apply groups_of_8_bits).
Qed.

Lemma text_to_binary_cons c text :
  text_to_binary (c :: text) = format_0b (ord c) 8 ++ text_to_binary text.
Proof. done. Qed.

(** The shape of the output of [text_to_binary]. *)
Lemma text_to_binary_shape (text : str) :
  len (text_to_binary text) = 8 * len text ∧ bitstring (text_to_binary text).
Proof.
  induction text as [|c text [IHlen IHbits]]; [by split; [|constructor]|].
  rewrite text_to_binary_cons.
  destruct (format_0b_bits (ord c) 8) as [Hlen Hbits];
    [lia|apply ord_range|].
  split.
  - rewrite len_app, Hlen, IHlen. unfold len. simpl length. lia.
  - by apply bitstring_app.
Qed.

(** [text_to_binary] writes eight bits for every character. *)
Theorem text_to_binary_bits (text : str) :
  len (text_to_binary text) = 8 * len text ∧ bitstring (text_to_binary text).
Proof. apply text_to_binary_shape. Qed.

(** Encoding a text and decoding it gives the text back without its NUL
    characters: the decoder drops every byte whose value is zero. *)
Theorem binary_to_text_text_to_binary (text : str) :
  binary_to_text (text_to_binary text)
  = Ok (filter (λ c, c ≠ Ascii.zero) text).
Proof.
  destruct (text_to_binary_shape text) as [Hlen Hbits].
  rewrite (binary_to_text_whole_bytes (length text)) by (done || unfold len in *; lia).
  f_equal. unfold binary_to_text_spec. clear Hlen Hbits.
  induction text as [|c text IH]; [done|].
  rewrite text_to_binary_cons, groups_of_8_cons, fmap_cons
    by (destruct (format_0b_bits (ord c) 8) as [H _];
        [lia|apply ord_range|unfold len in H; lia]).
  rewrite binary_value_format_0b by (lia || apply ord_range).
  destruct (decide (c = Ascii.zero)) as [->|Hc].
  - rewrite filter_cons_False by (by intros H).
    rewrite (filter_cons_False _ Ascii.zero) by (by intros H). done.
  - assert (ord c ≠ 0) as Hord.
    { intros H0. apply Hc. rewrite <- (ascii_N_embedding c).
      unfold ord in H0. by replace (N_of_ascii c) with 0%N by lia. }
    rewrite !filter_cons_True, fmap_cons, IH by done. f_equal.
    unfold ord. by rewrite N2Z.id, ascii_N_embedding.
Qed.

(** A byte of bits is the binary form of its value. *)
Lemma format_0b_binary_value_8 (g : str) :
  bitstring g → length g = 8%nat → format_0b (binary_value g) 8 = g.
Proof.
  intros Hg Hlen. do 8 (destruct g as [|? g]; [done|]). destruct g; [|done].
  repeat (apply Forall_cons in Hg as [[-> | ->] Hg]); reflexivity.
Qed.

(** The other way round: a string of whole bytes of bits, none of them
    [00000000], is decoded to a text whose encoding is the string again. *)
Theorem text_to_binary_binary_to_text (s : str) :
  bitstring s → len s `mod` 8 = 0 →
  (∀ k : nat, take 8 (drop (8 * k) s) ≠ replicate 8 "0"%char) →
  ∃ text, binary_to_text s = Ok text ∧ text_to_binary text = s.
Proof.
  intros Hs Hmod Hnz.
  assert (∃ q : nat, length s = (8 * q)%nat) as [q Hlen].
  { exists (length s / 8)%nat. unfold len in Hmod.
    pose proof (Nat.div_mod_eq (length s) 8).
    rewrite <- (Nat2Z.inj_mod _ 8) in Hmod. lia. }
  exists (binary_to_text_spec s).
  split; [by apply (binary_to_text_whole_bytes q)|].
  unfold binary_to_text_spec. clear Hmod.
  revert s Hs Hlen Hnz. induction q as [|q IH]; intros s Hs Hlen Hnz.
  - by destruct s.
  - assert (∃ g s', s = g ++ s' ∧ length g = 8%nat) as (g & s' & -> & Hg8).
    { exists (take 8 s), (drop 8 s).
      split; [by rewrite take_drop|rewrite length_take; lia]. }
    apply bitstring_app in Hs as [Hg Hs'].
    rewrite groups_of_8_cons, fmap_cons by done.
    assert (binary_value g ≠ 0) as Hv.
    { intros H0. apply binary_value_zero in H0; [|done].
      apply (Hnz 0%nat). rewrite Nat.mul_0_r, drop_0, take_app_length' by done.
      clear -H0 Hg8. do 8 (destruct g as [|? g]; [done|]).
      destruct g; [|done].
      by repeat (apply Forall_cons in H0 as [-> H0]). }
    rewrite filter_cons_True, fmap_cons, text_to_binary_cons by done.
    pose proof (binary_value_bounds g) as Hb. unfold len in Hb.
    rewrite Hg8 in Hb. change (2 ^ Z.of_nat 8) with 256 in Hb.
    assert (ord (ascii_of_N (Z.to_N (binary_value g))) = binary_value g) as ->.
    { unfold ord. rewrite N_ascii_embedding by lia. lia. }
    rewrite format_0b_binary_value_8 by done. f_equal.
    apply IH; [done|rewrite length_app in Hlen; lia|].
    intros k. specialize (Hnz (S k)).
    replace (8 * S k)%nat with (length g + 8 * k)%nat in Hnz by lia.
    by rewrite drop_app_add in Hnz.
Qed.

Lemma text_to_binary_binary_to_text_witness :
  ∃ text, binary_to_text (lit "0100000101000010") = Ok text ∧
          text_to_binary text = lit "0100000101000010".
Proof.
  apply (text_to_binary_binary_to_text (lit "0100000101000010"));
    [by_decide|reflexivity|].
  intros [|[|k]]; [done|done|].
  rewrite drop_ge; [done|]. change (length (lit "0100000101000010")) with 16%nat.
  lia.
Defined.

(** ** The checksum as a sum of words *)

Lemma slice_bitstring s lo hi : bitstring s → bitstring (slice s lo hi).
Proof. intros Hs. unfold slice. by apply Forall_take, Forall_drop. Qed.

Lemma words_total_nonneg w k s : 0 ≤ words_total w k s.
Proof.
  induction k as [|k IH]; simpl; [done|].
  pose proof (binary_value_bounds (take w (drop (k * w) s))). lia.
Qed.

Lemma sum_words_total s w (k : nat) :
  bitstring s → 0 < w → Z.of_nat k * w ≤ len s →
  sum_words s w (Z.of_nat k) = Ok (words_total (Z.to_nat w) k s).
Proof.
  intros Hs Hw. unfold sum_words. induction k as [|k IH]; intros Hk; [done|].
  rewrite range_succ, for_each_app, IH by lia. cbn [bind for_each].
  rewrite slice_take_drop by lia.
  replace (Z.of_nat k * w + w - Z.of_nat k * w) with w by lia.
  replace (Z.to_nat (Z.of_nat k * w)) with (k * Z.to_nat w)%nat by lia.
  set (word := take (Z.to_nat w) (drop (k * Z.to_nat w) s)).
  assert (bitstring word) as Hword by (by apply Forall_take, Forall_drop).
  assert (length word = Z.to_nat w) as Hlen.
  { unfold word. rewrite length_take, length_drop. unfold len in Hk. lia. }
  rewrite int_base2_bits; [done|done|].
  intros E. rewrite E in Hlen. simpl in Hlen. lia.
Qed.

Lemma padded_bits_spec data w :
  0 < w →
  (if decide (len data `mod` w ≠ 0)
   then data ++ str_mul "0"%char (w - len data `mod` w)
   else data) = padded_bits data w.
Proof.
  intros Hw. unfold padded_bits, str_mul. destruct (decide _) as [Hne|Heq].
  - by rewrite Z.mod_opp_l_nz by lia.
  - apply dec_stable in Heq. rewrite Z.mod_opp_l_z by lia.
    by rewrite app_nil_r.
Qed.

Lemma padded_bits_length data w :
  0 < w → len (padded_bits data w) `mod` w = 0.
Proof.
  intros Hw. unfold padded_bits. rewrite len_app, len_replicate.
  pose proof (Z.mod_pos_bound (- len data) w Hw). rewrite Z2Nat.id by lia.
  rewrite Z.add_mod_idemp_r by lia.
  replace (len data + - len data) with 0 by lia. by apply Z.mod_0_l; lia.
Qed.

Lemma padded_bits_bitstring data w : bitstring data → bitstring (padded_bits data w).
Proof.
  intros Hdata. apply bitstring_app. split; [done|].
  apply bitstring_replicate. by left.
Qed.

(** The checksum in closed form: the complement of the folded sum of the
    words of the padded data, written on [w] bits. *)
Lemma calculate_checksum_value data w :
  bitstring data → 0 < w →
  calculate_checksum data w
  = Ok (format_0b
          (2 ^ w - 1 - end_around (2 ^ w - 1) (checksum_total data w)) w).
Proof.
  intros Hdata Hw. unfold calculate_checksum, mod_, floordiv.
  assert ((w =? 0) = false) as -> by lia. cbn [mbind result_bind bind].
  rewrite padded_bits_spec by done.
  pose proof (padded_bits_length data w Hw) as Hmult.
  pose proof (len_nonneg (padded_bits data w)) as Hlen.
  assert (0 ≤ len (padded_bits data w) / w) by (apply Z.div_pos; lia).
  rewrite <- (Z2Nat.id (len (padded_bits data w) / w)) by done.
  rewrite sum_words_total;
    [|by apply padded_bits_bitstring|done|rewrite Z2Nat.id by done; zlia].
  cbn [mbind result_bind bind]. rewrite lshift_one by done.
  cbn [mbind result_bind bind]. fold (checksum_total data w).
  pose proof (words_total_nonneg (Z.to_nat w)
    (Z.to_nat (len (padded_bits data w) / w)) (padded_bits data w)) as Hnn.
  fold (checksum_total data w) in Hnn.
  rewrite fold_carry_end_around by done.
  rewrite complement_word; [done|done|].
  rewrite <- fold_carry_end_around by done. by apply fold_carry_range.
Qed.

Lemma words_total_app w k s t :
  (k * w ≤ length s)%nat → words_total w k (s ++ t) = words_total w k s.
Proof.
  induction k as [|k IH]; intros Hk; simpl; [done|].
  rewrite IH by lia. do 2 f_equal.
  rewrite drop_app_le by lia.
  rewrite take_app_le; [done|]. rewrite length_drop. lia.
Qed.

Lemma words_total_zero_words w k j s :
  length s = (k * w)%nat →
  words_total w (k + j) (s ++ replicate (j * w) "0"%char) = words_total w k s.
Proof.
  intros Hs. induction j as [|j IH].
  - rewrite Nat.add_0_r. simpl. by rewrite app_nil_r.
  - replace (k + S j)%nat with (S (k + j)) by lia. simpl words_total.
    replace (w + j * w)%nat with (j * w + w)%nat by lia.
    rewrite replicate_add, app_assoc, words_total_app, IH
      by (rewrite length_app, length_replicate; lia).
    rewrite drop_app_length'
      by (rewrite length_app, length_replicate; lia).
    rewrite take_ge by (rewrite length_replicate; lia).
    rewrite binary_value_zeros. lia.
Qed.

(** The bits that follow the data do not count when they are zero. *)
Lemma checksum_total_trailing_zeros data w n :
  0 < w → checksum_total (data ++ replicate n "0"%char) w = checksum_total data w.
Proof.
  intros Hw. unfold checksum_total.
  pose proof (padded_bits_length data w Hw) as Hm.
  pose proof (padded_bits_length (data ++ replicate n "0"%char) w Hw) as Hm'.
  set (P := padded_bits data w) in *.
  set (P' := padded_bits (data ++ replicate n "0"%char) w) in *.
  set (k := Z.to_nat (len P / w)). set (k' := Z.to_nat (len P' / w)).
  pose proof (len_nonneg P). pose proof (len_nonneg P').
  assert (length P = (k * Z.to_nat w)%nat) as Hk
    by (unfold k, len in *; apply Nat2Z.inj; rewrite Nat2Z.inj_mul, !Z2Nat.id;
        [zlia|lia|apply Z.div_pos; lia]).
  assert (length P' = (k' * Z.to_nat w)%nat) as Hk'
    by (unfold k', len in *; apply Nat2Z.inj; rewrite Nat2Z.inj_mul, !Z2Nat.id;
        [zlia|lia|apply Z.div_pos; lia]).
  assert (length data ≤ length P)%nat as Hle
    by (unfold P, padded_bits; rewrite length_app; lia).
  assert (length P ≤ length P')%nat as Hle'.
  { destruct (decide (length P ≤ length P')%nat) as [|Hgt]; [done|exfalso].
    assert (length data ≤ length P')%nat
      by (unfold P', padded_bits; rewrite !length_app; lia).
    assert (length P < length data + Z.to_nat w)%nat.
    { unfold P, padded_bits. rewrite length_app, length_replicate.
      pose proof (Z.mod_pos_bound (- len data) w Hw). lia. }
    assert (k' < k)%nat by nia. nia. }
  assert (P' = P ++ replicate ((k' - k) * Z.to_nat w) "0"%char) as HP'.
  { unfold P', P, padded_bits in *. rewrite <- !app_assoc, <- !replicate_add.
    do 2 f_equal. rewrite !length_app, !length_replicate in *. nia. }
  assert (k ≤ k')%nat by nia.
  clearbody k k' P P'. subst P'.
  replace k' with (k + (k' - k))%nat at 1 by lia.
  by apply words_total_zero_words.
Qed.

Lemma zeros_bitstring s : Forall (λ c, c = "0"%char) s → bitstring s.
Proof. intros H. eapply Forall_impl; [done|]. intros c ->. by left. Qed.

(** For a positive width the checksum of a string of bits is defined and is
    one word of exactly [w] bits. *)
Theorem calculate_checksum_width (data : str) (w : Z) :
  bitstring data → 0 < w →
  ∃ c, calculate_checksum data w = Ok c ∧ len c = w ∧ bitstring c.
Proof.
  intros Hdata Hw.
  destruct (calculate_checksum_bits data w) as (c & Hc & Hlen & Hbits & _);
    [done..|].
  by exists c.
Qed.

Lemma calculate_checksum_width_witness :
  ∃ c, calculate_checksum (lit "0100000101") 32 = Ok c ∧ len c = 32 ∧
       bitstring c.
Proof.
  apply (calculate_checksum_width (lit "0100000101") 32); [by_decide|lia].
Defined.

(** The checksum of zero bits. *)
Lemma calculate_checksum_zeros (data : str) (w : Z) :
  Forall (λ c, c = "0"%char) data → 0 < w →
  calculate_checksum data w = Ok (replicate (Z.to_nat w) "1"%char).
Proof.
  intros Hzero Hw.
  destruct (calculate_checksum_bits data w) as (c & Hc & _ & _ & Hones);
    [by apply zeros_bitstring|done|].
  by rewrite Hc, (Hones Hzero).
Qed.

(** Data made of zero bits only, the empty data included, has the all-ones
    checksum. *)
Theorem calculate_checksum_zero_data (data : str) (w : Z) :
  Forall (λ c, c = "0"%char) data → 0 < w →
  calculate_checksum data w = Ok (replicate (Z.to_nat w) "1"%char).
Proof. apply calculate_checksum_zeros. Qed.

Lemma calculate_checksum_zero_data_witness :
  calculate_checksum (lit "") 16 = Ok (replicate (Z.to_nat 16) "1"%char).
Proof.
  apply (calculate_checksum_zero_data (lit "") 16); [by_decide|lia].
Defined.

(** Zero bits appended to the data do not change the checksum: the data and
    the data followed by any number of zero bits are told apart by no
    checksum. *)
Theorem calculate_checksum_trailing_zeros (data : str) (w : Z) (n : nat) :
  bitstring data → 0 < w →
  calculate_checksum (data ++ replicate n "0"%char) w
  = calculate_checksum data w.
Proof.
  intros Hdata Hw.
  assert (bitstring (data ++ replicate n "0"%char)) as Hpadded.
  { apply bitstring_app. split; [done|]. apply bitstring_replicate. by left. }
  rewrite (calculate_checksum_value data) by done.
  rewrite (calculate_checksum_value (data ++ _)) by done.
  by rewrite checksum_total_trailing_zeros.
Qed.

Lemma calculate_checksum_trailing_zeros_witness :
  calculate_checksum (lit "0100000101" ++ replicate 9 "0"%char) 8
  = calculate_checksum (lit "0100000101") 8.
Proof.
  apply (calculate_checksum_trailing_zeros (lit "0100000101") 8 9);
    [by_decide|lia].
Defined.

(** [verify_checksum_simple] on a frame split into data and field. *)
Lemma verify_checksum_simple_split (data field c : str) (w : Z) :
  bitstring data → 0 < w → len field = w →
  calculate_checksum data w = Ok c →
  verify_checksum_simple (data ++ field) w
  = Ok (bool_decide (c = field), c, field).
Proof.
  intros Hdata Hw Hlen Hc. unfold verify_checksum_simple.
  destruct (checksum_frame_split data field w) as [-> ->]; [done..|].
  by rewrite Hc.
Qed.

(** [verify_checksum_simple] splits a frame into data and a field of [w]
    bits, and accepts it exactly when the field is the checksum of the
    data; it returns both checksums. *)
Theorem verify_checksum_simple_field (data field c : str) (w : Z) :
  bitstring data → 0 < w → len field = w →
  calculate_checksum data w = Ok c →
  verify_checksum_simple (data ++ field) w
  = Ok (bool_decide (c = field), c, field).
Proof. apply verify_checksum_simple_split. Qed.

Lemma verify_checksum_simple_field_witness :
  verify_checksum_simple (lit "0100000101000010" ++ lit "01111101") 8
  = Ok (bool_decide (lit "01111100" = lit "01111101"),
        lit "01111100", lit "01111101").
Proof.
  apply (verify_checksum_simple_field
           (lit "0100000101000010") (lit "01111101") (lit "01111100") 8).
  - by_decide.
  - lia.
  - reflexivity.
  - vm_compute. reflexivity.
Defined.

(** The round trip of the recompute-and-compare verifier: every frame made
    by [add_checksum] is accepted, with the two checksums equal. *)
Theorem verify_checksum_simple_add_checksum (data : str) (w : Z) :
  bitstring data → 0 < w →
  ∃ frame c, add_checksum data w = Ok frame ∧
             calculate_checksum data w = Ok c ∧
             verify_checksum_simple frame w = Ok (true, c, c).
Proof.
  intros Hdata Hw.
  destruct (calculate_checksum_bits data w) as (c & Hc & _); [done..|].
  exists (data ++ c), c. split; [by apply add_checksum_frame|].
  split; [done|by apply verify_checksum_simple_frame].
Qed.

Lemma verify_checksum_simple_add_checksum_witness :
  ∃ frame c, add_checksum (lit "0100000101") 8 = Ok frame ∧
             calculate_checksum (lit "0100000101") 8 = Ok c ∧
             verify_checksum_simple frame 8 = Ok (true, c, c).
Proof.
  apply (verify_checksum_simple_add_checksum (lit "0100000101") 8);
    [by_decide|lia].
Defined.

(** The test that [verify_checksum] makes, on the bits of the frame. *)
Lemma verify_checksum_words (frame : str) (w : Z) :
  bitstring frame → 0 < w →
  verify_checksum frame w
  = Ok (bool_decide
          (Forall (λ c, c = "0"%char)
             (take (Z.to_nat (len frame / w * w)) frame))).
Proof.
  intros Hframe Hw. unfold verify_checksum.
  destruct (calculate_checksum_bits (slice frame None (Some (- w))) w)
    as (c & -> & _); [by apply slice_bitstring|done|].
  cbn [mbind result_bind bind]. rewrite lshift_one by done.
  unfold floordiv. assert ((w =? 0) = false) as -> by lia.
  cbn [mbind result_bind bind].
  pose proof (len_nonneg frame).
  assert (0 ≤ len frame / w) by (apply Z.div_pos; lia).
  destruct (sum_words_bits_Z frame w (len frame / w))
    as (t & -> & Ht & Hzero); [done|done|done|zlia|].
  cbn [mbind result_bind bind]. f_equal. apply bool_decide_ext.
  by rewrite fold_carry_zero.
Qed.

(** What [verify_checksum] computes: it accepts a frame exactly when every
    bit of its whole words is zero (the bits after the last whole word are
    not read). *)
Theorem verify_checksum_zero_words (frame : str) (w : Z) :
  bitstring frame → 0 < w →
  verify_checksum frame w
  = Ok (bool_decide
          (Forall (λ c, c = "0"%char)
             (take (Z.to_nat (len frame / w * w)) frame))).
Proof. apply verify_checksum_words. Qed.

Lemma verify_checksum_zero_words_witness :
  verify_checksum (lit "000000001011") 8
  = Ok (bool_decide
          (Forall (λ c, c = "0"%char)
             (take (Z.to_nat (len (lit "000000001011") / 8 * 8))
                (lit "000000001011")))).
Proof.
  apply (verify_checksum_zero_words (lit "000000001011") 8); [by_decide|lia].
Defined.

(** A frame shorter than one word: [verify_checksum] accepts it whatever
    its bits, and [verify_checksum_simple] rejects it, comparing the
    all-ones checksum of the empty data with the whole frame. *)
Theorem verify_checksum_short_frame (frame : str) (w : Z) :
  bitstring frame → len frame < w →
  verify_checksum frame w = Ok true ∧
  verify_checksum_simple frame w
  = Ok (false, replicate (Z.to_nat w) "1"%char, frame).
Proof.
  intros Hframe Hshort. pose proof (len_nonneg frame) as Hlen. split.
  - rewrite verify_checksum_words by (done || lia).
    rewrite Z.div_small by lia. by rewrite bool_decide_eq_true_2.
  - unfold verify_checksum_simple.
    rewrite slice_last_short by lia.
    assert (slice frame None (Some (- w)) = []) as ->.
    { unfold slice, clamp. cbv zeta.
      assert ((- w <? 0) = true) as -> by lia.
      by replace (Z.to_nat _) with 0%nat by lia. }
    rewrite calculate_checksum_zeros by (done || lia).
    cbn [mbind result_bind bind]. do 2 f_equal. f_equal.
    apply bool_decide_eq_false. intros E.
    apply (f_equal length) in E. rewrite length_replicate in E.
    unfold len in *. lia.
Qed.

Lemma verify_checksum_short_frame_witness :
  verify_checksum (lit "1011") 8 = Ok true ∧
  verify_checksum_simple (lit "1011") 8
  = Ok (false, replicate (Z.to_nat 8) "1"%char, lit "1011").
Proof.
  apply (verify_checksum_short_frame (lit "1011") 8);
    [by_decide|vm_compute; reflexivity].
Defined.

(** A frame of zero bits only, of at least one word: [verify_checksum]
    accepts it, and [verify_checksum_simple] rejects it, the checksum of
    zero data being all ones. *)
Theorem verify_checksum_zero_frame (n : nat) (w : Z) :
  0 < w → w ≤ Z.of_nat n →
  verify_checksum (replicate n "0"%char) w = Ok true ∧
  verify_checksum_simple (replicate n "0"%char) w
  = Ok (false, replicate (Z.to_nat w) "1"%char,
        replicate (Z.to_nat w) "0"%char).
Proof.
  intros Hw Hn. split.
  - rewrite verify_checksum_words
      by (done || apply bitstring_replicate; by left).
    rewrite bool_decide_eq_true_2; [done|].
    by apply Forall_take, Forall_replicate.
  - replace n with ((n - Z.to_nat w) + Z.to_nat w)%nat by lia.
    rewrite replicate_add.
    rewrite (verify_checksum_simple_split _ _ (replicate (Z.to_nat w) "1"%char));
      [|apply bitstring_replicate; by left|done
       |rewrite len_replicate; lia
       |by apply calculate_checksum_zeros; [apply Forall_replicate|]].
    do 2 f_equal. f_equal. apply bool_decide_eq_false.
    destruct (Z.to_nat w) as [|m] eqn:E; [lia|]. simpl. by intros [=].
Qed.

Lemma verify_checksum_zero_frame_witness :
  verify_checksum (replicate 24 "0"%char) 8 = Ok true ∧
  verify_checksum_simple (replicate 24 "0"%char) 8
  = Ok (false, replicate (Z.to_nat 8) "1"%char,
        replicate (Z.to_nat 8) "0"%char).
Proof. apply (verify_checksum_zero_frame 24 8); lia. Defined.

(** ** CRC-32: what the division sees and what it misses *)

Lemma xor_cells_assoc a b c :
  xor_cells (xor_cells a b) c = xor_cells a (xor_cells b c).
Proof.
  unfold xor_cells. revert b c.
  induction a as [|x a IH]; intros [|y b] [|z c]; simpl; try done.
  by rewrite IH, Z.lxor_assoc.
Qed.

Lemma xor_cells_cancel a b s :
  (length a ≤ length s)%nat →
  xor_cells (xor_cells a s) (xor_cells b s) = xor_cells a b.
Proof.
  intros Hlen.
  rewrite (xor_cells_comm b s), <- xor_cells_assoc, (xor_cells_assoc a s s).
  by rewrite xor_cells_self, xor_cells_zeros.
Qed.

Lemma shifted_lookup_in poly i m t :
  (t < length poly)%nat → shifted poly i m !! (i + t)%nat = poly !! t.
Proof.
  intros Ht. unfold shifted.
  rewrite lookup_app_r by (rewrite length_replicate; lia).
  rewrite length_replicate, lookup_app_l by lia. f_equal. lia.
Qed.

Lemma shifted_S poly i m : shifted poly (S i) (S m) = 0 :: shifted poly i m.
Proof. done. Qed.

Section DivisionAlgebra.

Variable poly : list Z.
Hypothesis poly_cells_ok : cells poly.
Hypothesis poly_head : poly !! 0%nat = Some 1.

(** The division is linear for XOR. *)
Lemma divide_xor a b (k : nat) :
  cells a → cells b → length a = length b →
  ((0 < k)%nat → (k + length poly ≤ S (length a))%nat) →
  divide poly (xor_cells a b) k
  = xor_cells (divide poly a k) (divide poly b k).
Proof.
  intros Ha Hb Hlen. pose proof (poly_length_pos poly poly_head) as Hpos.
  induction k as [|k IH]; intros Hk; [done|].
  rewrite !divide_S, IH by lia.
  set (A := divide poly a k). set (B := divide poly b k).
  assert (length A = length a) as HA by apply divide_length.
  assert (length B = length a) as HB by (unfold B; by rewrite divide_length).
  destruct (lookup_lt_is_Some_2 A k) as [x Hx]; [lia|].
  destruct (lookup_lt_is_Some_2 B k) as [y Hy]; [lia|].
  assert (is_cell x) as Hcx
    by (eapply Forall_lookup_1; [by apply (divide_cells poly poly_cells_ok a)|exact Hx]).
  assert (is_cell y) as Hcy
    by (eapply Forall_lookup_1; [by apply (divide_cells poly poly_cells_ok b)|exact Hy]).
  unfold division_pass.
  rewrite (xor_cells_lookup _ _ _ x y), Hx, Hy by done.
  rewrite xor_cells_length, HA, HB by lia.
  assert (length (shifted poly k (length a)) = length a) as HS
    by (apply shifted_length; lia).
  destruct Hcx as [-> | ->], Hcy as [-> | ->]; simpl;
    repeat (rewrite decide_True by done || rewrite decide_False by done).
  - done.
  - apply xor_cells_assoc.
  - apply xor_cells_swap.
  - by rewrite xor_cells_cancel by lia.
Qed.

(** A zero cell in front of the buffer shifts the division by one
    position. *)
Lemma divide_cons_zero data (k : nat) :
  divide poly (0 :: data) (S k) = 0 :: divide poly data k.
Proof.
  induction k as [|k IH]; [done|].
  rewrite (divide_S poly (0 :: data)), IH, divide_S.
  unfold division_pass. simpl length. rewrite shifted_S.
  change ((0 :: divide poly data k) !! S k) with (divide poly data k !! k).
  by destruct (decide _).
Qed.

End DivisionAlgebra.

(** The remainder that [check_crc] reads: the last 32 cells of the divided
    buffer, or the whole buffer when it is shorter. *)
Lemma check_crc_remainder frame :
  bitstring frame →
  check_crc frame
  = int_base2
      (bit_char <$>
         slice (divide poly_cells (bit_value <$> frame)
                  (Z.to_nat (len frame - 32)))
           (Some (- 32)) None).
Proof.
  intros Hframe. unfold check_crc. fold poly_bits.
  by rewrite crc_division_engine_bits by done.
Qed.

(** On a string of bits that is not empty, [check_crc] raises nothing and
    returns a number of at most 32 bits. *)
Theorem check_crc_range (frame : str) :
  bitstring frame → frame ≠ [] →
  ∃ v, check_crc frame = Ok v ∧ 0 ≤ v < 2 ^ 32.
Proof.
  intros Hframe Hne. rewrite check_crc_remainder by done.
  set (D := divide _ _ _).
  assert (length D = length frame) as HD
    by (unfold D; by rewrite divide_length, length_fmap).
  assert (0 < length frame)%nat by (destruct frame; [done|simpl; lia]).
  set (r := slice D (Some (-32)) None).
  assert (0 < length r ≤ 32)%nat as Hr.
  { unfold r, slice, clamp. cbv zeta. change (-32 <? 0) with true.
    rewrite length_take, length_drop. unfold len. lia. }
  rewrite int_base2_bits;
    [|apply bitstring_bit_char
     |intros E; apply (f_equal length) in E; rewrite length_fmap in E;
      simpl in E; lia].
  eexists. split; [done|].
  pose proof (binary_value_bounds (bit_char <$> r)) as Hv.
  unfold len in Hv. rewrite length_fmap in Hv.
  assert (2 ^ Z.of_nat (length r) ≤ 2 ^ 32)
    by (apply Z.pow_le_mono_r; lia).
  lia.
Qed.

Lemma check_crc_range_witness :
  ∃ v, check_crc (lit "1") = Ok v ∧ 0 ≤ v < 2 ^ 32.
Proof. apply (check_crc_range (lit "1")); [by_decide|done]. Defined.

Lemma crc_cells_cons_zero data :
  crc_cells ("0"%char :: data) = crc_cells data.
Proof.
  unfold crc_cells. rewrite fmap_cons. change (bit_value "0") with 0.
  simpl length. rewrite <- app_comm_cons.
  by rewrite (divide_cons_zero poly_cells).
Qed.

(** Zero bits in front of the data do not change the CRC; in particular the
    CRC of data made of zero bits only is 32 zero bits. *)
Theorem generate_crc_leading_zeros (data : str) (n : nat) :
  bitstring data →
  generate_crc (replicate n "0"%char ++ data) = generate_crc data.
Proof.
  intros Hdata.
  rewrite !generate_crc_cells;
    [|done|apply bitstring_app; split; [apply bitstring_replicate; by left|done]].
  do 2 f_equal. induction n as [|n IH]; [done|].
  simpl. by rewrite crc_cells_cons_zero.
Qed.

Lemma generate_crc_leading_zeros_witness :
  generate_crc (replicate 3 "0"%char ++ lit "1011")
  = generate_crc (lit "1011").
Proof. apply (generate_crc_leading_zeros (lit "1011") 3). by_decide. Defined.

(** A zero bit in front of a frame does not change what [check_crc]
    returns: bits lost or inserted in a run of leading zeros go
    undetected. *)
Theorem check_crc_leading_zero (frame : str) :
  bitstring frame → frame ≠ [] →
  check_crc ("0"%char :: frame) = check_crc frame.
Proof.
  intros Hframe Hne.
  assert (bitstring ("0"%char :: frame)) as Hframe'
    by (constructor; [by left|done]).
  rewrite !check_crc_remainder by done.
  assert (0 < length frame)%nat by (destruct frame; [done|simpl; lia]).
  rewrite fmap_cons. change (bit_value "0") with 0.
  destruct (decide (length frame < 32)%nat) as [Hshort|Hlong].
  - replace (Z.to_nat (len ("0"%char :: frame) - 32)) with 0%nat
      by (unfold len; simpl length; lia).
    replace (Z.to_nat (len frame - 32)) with 0%nat by (unfold len; lia).
    change (divide poly_cells ?l 0) with l.
    rewrite !slice_last_short
      by (unfold len; simpl length; rewrite ?length_fmap; lia).
    rewrite fmap_cons, bit_char_bit_value by done.
    change (bit_char 0) with "0"%char.
    by rewrite !int_base2_bits by done.
  - replace (Z.to_nat (len ("0"%char :: frame) - 32))
      with (S (Z.to_nat (len frame - 32)))
      by (unfold len; simpl length; lia).
    rewrite (divide_cons_zero poly_cells).
    set (D := divide _ _ _).
    assert (length D = length frame) as HD
      by (unfold D; by rewrite divide_length, length_fmap).
    rewrite !slice_last_drop by (unfold len; simpl length; lia).
    do 2 f_equal.
    replace (Z.to_nat (len (0 :: D) + -32))
      with (S (Z.to_nat (len D + -32))) by (unfold len; simpl length; lia).
    done.
Qed.

Lemma check_crc_leading_zero_witness :
  check_crc ("0"%char :: lit "1011") = check_crc (lit "1011").
Proof. apply (check_crc_leading_zero (lit "1011")); [by_decide|done]. Defined.

(** ** CRC-32 detects every single flipped bit *)

(** Flipping the bit at [j] XORs the cells with a buffer that holds a
    single one, at [j]. *)
Lemma flip_cells s (j : nat) c :
  bitstring s → s !! j = Some c →
  bit_value <$> <[j := if decide (c = "0"%char) then "1"%char else "0"%char]> s
  = xor_cells (bit_value <$> s) (shifted [1] j (length s)).
Proof.
  intros Hs Hc. pose proof (lookup_lt_Some _ _ _ Hc) as Hj.
  assert (is_bit c) as Hbit by (eapply Forall_lookup_1; [exact Hs|exact Hc]).
  rewrite insert_take_drop by done.
  rewrite <- (take_drop_middle s j c) at 3 4 by done.
  rewrite !fmap_app, !fmap_cons. unfold shifted.
  rewrite xor_cells_app by (by rewrite length_replicate, length_fmap, length_take; lia).
  rewrite xor_cells_zeros by (rewrite length_fmap, length_take; lia).
  f_equal. rewrite length_app, length_take. simpl length.
  unfold xor_cells. simpl zip_with. fold (xor_cells (bit_value <$> drop (S j) s)
    (replicate (j `min` length s + S (length (drop (S j) s)) - j - 1) 0)).
  rewrite xor_cells_zeros by (rewrite length_fmap, length_drop; lia).
  f_equal. by destruct Hbit as [-> | ->].
Qed.

Section ErrorBuffer.

Variable poly : list Z.
Hypothesis poly_last : poly !! (length poly - 1)%nat = Some 1.
Hypothesis poly_long : (2 ≤ length poly)%nat.

(** An error buffer of [m] cells: its first one is at [j], and every cell
    from [j + length poly - 1] on is zero, so that its ones span fewer
    cells than the polynomial. *)
Variable err : list Z.
Variable j : nat.
Variable m : nat.
Hypothesis err_length : length err = m.
Hypothesis err_first : err !! j = Some 1.
Hypothesis err_before : ∀ q, (q < j)%nat → err !! q = Some 0.
Hypothesis err_after :
  ∀ q, (j + length poly - 1 ≤ q < m)%nat → err !! q = Some 0.

(** Passes before the first one leave the buffer as it is. *)
Lemma divide_burst_untouched (k : nat) :
  (k ≤ j)%nat → divide poly err k = err.
Proof.
  induction k as [|k IH]; intros Hk; [done|].
  rewrite divide_S, IH by lia. unfold division_pass.
  by rewrite err_before, decide_False by (lia || done).
Qed.

(** Once the first one has been visited, the buffer keeps a one somewhere
    and is zero from the end of the current window on. *)
Lemma divide_burst_invariant (d : nat) :
  (j + d + length poly ≤ m)%nat →
  let D := divide poly err (S (j + d)) in
  length D = m ∧
  (∃ p, D !! p = Some 1) ∧
  (∀ q, (j + d + length poly ≤ q < m)%nat → D !! q = Some 0).
Proof.
  induction d as [|d IH]; intros Hd; cbv zeta.
  - rewrite Nat.add_0_r in *. rewrite divide_S, divide_burst_untouched by lia.
    unfold division_pass. rewrite err_first, decide_True, err_length by done.
    assert (length (xor_cells err (shifted poly j m)) = m) as Hlen
      by (rewrite xor_cells_length; rewrite ?shifted_length; lia).
    split; [done|]. split.
    + exists (j + (length poly - 1))%nat.
      rewrite (xor_cells_lookup _ _ _ 0 1); [done| |].
      * apply err_after. lia.
      * rewrite shifted_lookup_in by lia. done.
    + intros q Hq. rewrite (xor_cells_lookup _ _ _ 0 0); [done| |].
      * apply err_after. lia.
      * apply shifted_lookup_after. lia.
  - destruct IH as (Hlen & [p Hp] & Hzero); [lia|].
    replace (j + S d)%nat with (S (j + d)) by lia.
    rewrite divide_S. set (D := divide poly err (S (j + d))) in *.
    unfold division_pass. destruct (decide _) as [Hone|Hnot].
    + rewrite Hlen.
      assert (length (shifted poly (S (j + d)) m) = m)
        by (apply shifted_length; lia).
      split; [by rewrite xor_cells_length by lia|]. split.
      * exists (S (j + d) + (length poly - 1))%nat.
        rewrite (xor_cells_lookup _ _ _ 0 1); [done| |].
        -- apply Hzero. lia.
        -- by rewrite shifted_lookup_in by lia.
      * intros q Hq. rewrite (xor_cells_lookup _ _ _ 0 0); [done| |].
        -- apply Hzero. lia.
        -- apply shifted_lookup_after. lia.
    + split; [done|]. split; [by exists p|].
      intros q Hq. apply Hzero. lia.
Qed.

(** The division of such a buffer leaves a one behind. *)
Lemma divide_burst_nonzero (k : nat) :
  ((0 < k)%nat → (k + length poly ≤ S m)%nat) →
  ∃ p, divide poly err k !! p = Some 1.
Proof.
  intros Hk. destruct (decide (k ≤ j)%nat) as [Hle|Hgt].
  - exists j. by rewrite divide_burst_untouched.
  - replace k with (S (j + (k - j - 1))) by lia.
    destruct (divide_burst_invariant (k - j - 1)) as (_ & Hp & _); [lia|].
    done.
Qed.

End ErrorBuffer.

Lemma poly_cells_last : poly_cells !! (length poly_cells - 1)%nat = Some 1.
Proof. reflexivity. Qed.

(** The division of a frame made by [generate_crc] leaves only zeros. *)
Lemma divide_frame_zero data :
  divide poly_cells ((bit_value <$> data) ++ crc_cells data) (length data)
  = replicate (length data + 32) 0.
Proof.
  set (padded := (bit_value <$> data) ++ replicate 32 0).
  assert (length padded = (length data + 32)%nat) as Hlen
    by (unfold padded; rewrite length_app, length_fmap, length_replicate; lia).
  pose proof (divide_padded data) as HR. fold padded in HR.
  assert ((bit_value <$> data) ++ crc_cells data
          = xor_cells padded (divide poly_cells padded (length data))) as ->.
  { rewrite HR. unfold padded.
    rewrite xor_cells_app by (by rewrite length_fmap, length_replicate).
    rewrite xor_cells_zeros by (by rewrite length_fmap).
    rewrite xor_cells_comm, xor_cells_zeros; [done|].
    by rewrite crc_cells_length. }
  rewrite (divide_linear _ poly_cells_head).
  - by rewrite xor_cells_self, divide_length, Hlen.
  - by rewrite divide_length.
  - rewrite poly_cells_length. lia.
  - intros j Hj. rewrite HR.
    rewrite lookup_app_l by (by rewrite length_replicate).
    by apply lookup_replicate_2.
Qed.

(** A frame of [generate_crc] to which an error buffer has been added, whose
    ones span at most 32 cells, does not pass [check_crc]. *)
Lemma check_crc_error (data corrupted : str) (err : list Z) (j : nat) :
  bitstring data → bitstring corrupted →
  bit_value <$> corrupted
  = xor_cells (bit_value <$> (data ++ (bit_char <$> crc_cells data))) err →
  cells err → length err = (length data + 32)%nat →
  err !! j = Some 1 →
  (∀ q, (q < j)%nat → err !! q = Some 0) →
  (∀ q, (j + 32 ≤ q < length data + 32)%nat → err !! q = Some 0) →
  ∃ v, check_crc corrupted = Ok v ∧ v ≠ 0.
Proof.
  intros Hdata Hcorrupted Hcells Herr Hlen Hfirst Hbefore Hafter.
  set (frame := data ++ (bit_char <$> crc_cells data)) in *.
  assert (length frame = (length data + 32)%nat) as Hframe
    by (unfold frame; rewrite length_app, length_fmap, crc_cells_length; lia).
  assert (length corrupted = (length data + 32)%nat) as Hlen'.
  { rewrite <- (length_fmap bit_value corrupted), Hcells.
    rewrite xor_cells_length; rewrite length_fmap; lia. }
  set (D := divide poly_cells (bit_value <$> corrupted) (length data)).
  assert (D = divide poly_cells err (length data)) as HD.
  { unfold D. rewrite Hcells.
    rewrite (divide_xor _ poly_cells_cells poly_cells_head);
      [|apply cells_bit_value|done|by rewrite length_fmap, Hframe
       |rewrite length_fmap, Hframe, poly_cells_length; lia].
    unfold frame. rewrite fmap_app, bit_value_bit_char by apply crc_cells_cells.
    rewrite divide_frame_zero, xor_cells_comm.
    apply xor_cells_zeros. by rewrite divide_length, Hlen. }
  assert (2 ≤ length poly_cells)%nat as Hlong
    by (rewrite poly_cells_length; lia).
  destruct (divide_burst_nonzero poly_cells poly_cells_last Hlong err j
              (length data + 32) Hlen Hfirst Hbefore) with (k := length data)
    as [p Hp].
  { intros q Hq. apply Hafter. rewrite poly_cells_length in Hq. lia. }
  { rewrite poly_cells_length. lia. }
  rewrite <- HD in Hp.
  assert (length data ≤ p)%nat as Hpm.
  { destruct (decide (length data ≤ p)%nat) as [|Hlt]; [done|exfalso].
    rewrite HD in Hp.
    rewrite (divide_prefix_zero _ poly_cells_cells poly_cells_head) in Hp;
      [done|done|rewrite Hlen, poly_cells_length; lia|lia]. }
  rewrite check_crc_remainder by done.
  replace (Z.to_nat (len corrupted - 32)) with (length data)
    by (unfold len; lia).
  fold D.
  assert (length D = (length data + 32)%nat) as HlenD
    by (unfold D; by rewrite divide_length, length_fmap).
  rewrite slice_last_drop by (unfold len; lia).
  replace (Z.to_nat (len D + -32)) with (length data) by (unfold len; lia).
  set (r := bit_char <$> drop (length data) D).
  assert (r !! (p - length data)%nat = Some "1"%char) as Hr.
  { unfold r. rewrite list_lookup_fmap, lookup_drop.
    replace (length data + (p - length data))%nat with p by lia.
    by rewrite Hp. }
  rewrite int_base2_bits;
    [|apply bitstring_bit_char|by intros E; rewrite E in Hr].
  eexists. split; [done|].
  rewrite binary_value_zero by apply bitstring_bit_char.
  intros Hzero. by apply (Forall_lookup_1 _ _ _ _ Hzero) in Hr.
Qed.

(** Flipping any one bit of [data + generate_crc(data)], in the data or in
    the CRC, makes [check_crc] return a number that is not zero. *)
Theorem check_crc_detects_single_flip (data : str) (j : Z) :
  bitstring data → 0 ≤ j < len data + 32 →
  ∃ crc corrupted v,
    generate_crc data = Ok crc ∧
    flip_bit (data ++ crc) j = Ok corrupted ∧
    check_crc corrupted = Ok v ∧ v ≠ 0.
Proof.
  intros Hdata Hj.
  set (frame := data ++ (bit_char <$> crc_cells data)).
  assert (bitstring frame) as Hframe
    by (apply bitstring_app; split; [done|apply bitstring_bit_char]).
  assert (length frame = (length data + 32)%nat) as Hlen
    by (unfold frame; rewrite length_app, length_fmap, crc_cells_length; lia).
  destruct (lookup_lt_is_Some_2 frame (Z.to_nat j)) as [c Hc];
    [unfold len in Hj; lia|].
  assert (is_bit c) as Hbit
    by (eapply Forall_lookup_1; [exact Hframe|exact Hc]).
  set (corrupted := <[Z.to_nat j := flipped c]> frame).
  assert (bitstring corrupted) as Hcorrupted.
  { apply Forall_insert; [done|]. by destruct Hbit as [-> | ->]; by_decide. }
  destruct (check_crc_error data corrupted
              (shifted [1] (Z.to_nat j) (length data + 32)) (Z.to_nat j))
    as (v & Hv & Hnz);
    [done|done
    |unfold corrupted, flipped; rewrite (flip_cells frame _ c) by done;
     by rewrite Hlen
    |apply shifted_cells; by_decide
    |apply shifted_length; simpl; unfold len in Hj; lia
    |by apply shifted_lookup_head
    |intros q Hq; by apply shifted_lookup_before
    |intros q Hq; apply shifted_lookup_after; simpl; lia|].
  exists (bit_char <$> crc_cells data), corrupted, v.
  split; [by apply generate_crc_cells|]. split; [|done].
  apply flip_bit_insert; [lia|done].
Qed.

Lemma check_crc_detects_single_flip_witness :
  ∃ crc corrupted v,
    generate_crc (lit "0100000101000010") = Ok crc ∧
    flip_bit (lit "0100000101000010" ++ crc) 5 = Ok corrupted ∧
    check_crc corrupted = Ok v ∧ v ≠ 0.
Proof.
  apply (check_crc_detects_single_flip (lit "0100000101000010") 5);
    [by_decide|vm_compute; split; [discriminate|reflexivity]].
Defined.

(** ** CRC-32 detects every burst of at most 32 bits *)

Lemma shifted_unit_lookup (p m q : nat) :
  (p < m)%nat → (q < m)%nat →
  shifted [1] p m !! q = Some (if decide (q = p) then 1 else 0).
Proof.
  intros Hp Hq. destruct (decide (q = p)) as [->|Hne].
  - by apply shifted_lookup_head.
  - destruct (decide (q < p)%nat).
    + by apply shifted_lookup_before.
    + apply shifted_lookup_after. simpl. lia.
Qed.

Lemma flip_pattern_length m ps :
  Forall (λ p, (p < m)%nat) ps → length (flip_pattern m ps) = m.
Proof.
  intros H; induction H as [|p ps Hp _ IH]; cbn [flip_pattern]; [by rewrite length_replicate|].
  rewrite xor_cells_length; rewrite shifted_length by (simpl; lia); [done|].
  by rewrite IH.
Qed.

Lemma flip_pattern_cells m ps : cells (flip_pattern m ps).
Proof.
  induction ps as [|p ps IH]; simpl.
  - apply Forall_replicate. by left.
  - apply xor_cells_cells; [apply shifted_cells; by_decide|done].
Qed.

(** Positions flipped once hold a one, the others a zero. *)
Lemma flip_pattern_lookup m ps (q : nat) :
  NoDup ps → Forall (λ p, (p < m)%nat) ps → (q < m)%nat →
  flip_pattern m ps !! q = Some (if decide (q ∈ ps) then 1 else 0).
Proof.
  intros Hnd Hps Hq. induction Hnd as [|p ps Hp Hnd IH]; cbn [flip_pattern].
  - rewrite lookup_replicate_2 by done.
    destruct (decide (q ∈ [])) as [Hin|_]; [|done].
    by apply elem_of_nil in Hin.
  - apply Forall_cons in Hps as [Hpm Hps].
    rewrite (xor_cells_lookup _ _ _ _ _ (shifted_unit_lookup p m q Hpm Hq)
               (IH Hps)).
    f_equal.
    destruct (decide (q = p)) as [->|Hne], (decide (_ ∈ ps)) as [Hin|Hnin],
      (decide (_ ∈ _ :: _)) as [Hor|Hnor];
      rewrite ?elem_of_cons in *; try done; tauto.
Qed.

(** Flipping the bits at [ps], one call of [flip_bit] after the other, adds
    the pattern of [ps] to the cells of the string. *)
Lemma flip_bits_cells (ps : list nat) (s : str) :
  bitstring s → Forall (λ p, (p < length s)%nat) ps →
  ∃ s', for_each (Z.of_nat <$> ps) flip_bit s = Ok s' ∧
        bitstring s' ∧
        bit_value <$> s'
        = xor_cells (bit_value <$> s) (flip_pattern (length s) ps).
Proof.
  revert s. induction ps as [|p ps IH]; intros s Hs Hps.
  - exists s. split; [done|]. split; [done|]. simpl.
    by rewrite xor_cells_zeros by (by rewrite length_fmap).
  - apply Forall_cons in Hps as [Hp Hps].
    destruct (lookup_lt_is_Some_2 s p Hp) as [c Hc].
    assert (is_bit c) as Hbit by (eapply Forall_lookup_1; [exact Hs|exact Hc]).
    set (s1 := <[p := flipped c]> s).
    assert (flip_bit s (Z.of_nat p) = Ok s1) as Hflip.
    { rewrite (flip_bit_insert s (Z.of_nat p) c) by (rewrite ?Nat2Z.id; done || lia).
      by rewrite Nat2Z.id. }
    assert (bitstring s1) as Hs1.
    { apply Forall_insert; [done|]. by destruct Hbit as [-> | ->]; by_decide. }
    assert (length s1 = length s) as Hlen1 by apply length_insert.
    destruct (IH s1 Hs1) as (s' & Hrun & Hs' & Hcells);
      [by rewrite Hlen1|].
    exists s'. split; [|split; [done|]].
    + rewrite fmap_cons. cbn [for_each]. rewrite Hflip. exact Hrun.
    + rewrite Hcells, Hlen1. unfold s1, flipped.
      rewrite (flip_cells s p c) by done. cbn [flip_pattern].
      by rewrite xor_cells_assoc.
Qed.

(** A buffer with a one has a first one. *)
Lemma cells_first_one (l : list Z) (q : nat) :
  cells l → l !! q = Some 1 →
  ∃ j, (j ≤ q)%nat ∧ l !! j = Some 1 ∧ ∀ i, (i < j)%nat → l !! i = Some 0.
Proof.
  intros Hl. revert q. induction Hl as [|x l Hx Hl IH]; intros q Hq; [done|].
  destruct Hx as [-> | ->].
  - destruct q as [|q]; [done|]. destruct (IH q Hq) as (j & Hj & Hone & Hzero).
    exists (S j). split; [lia|]. split; [done|].
    intros [|i] Hi; [done|]. apply Hzero. lia.
  - exists 0%nat. split; [lia|]. split; [done|]. intros i Hi. lia.
Qed.

(** Flipping the bits at any positions of [data + generate_crc(data)] that
    are distinct, at least one, and all within a window of 32 consecutive
    bits makes [check_crc] return a number that is not zero. *)
Theorem check_crc_detects_burst (data : str) (positions : list nat)
    (start : nat) :
  bitstring data → positions ≠ [] → NoDup positions →
  (∀ p, p ∈ positions →
        (start ≤ p < start + 32)%nat ∧ (p < length data + 32)%nat) →
  ∃ crc corrupted v,
    generate_crc data = Ok crc ∧
    for_each (Z.of_nat <$> positions) flip_bit (data ++ crc) = Ok corrupted ∧
    check_crc corrupted = Ok v ∧ v ≠ 0.
Proof.
  intros Hdata Hne Hnd Hwin.
  set (frame := data ++ (bit_char <$> crc_cells data)).
  assert (bitstring frame) as Hframe
    by (apply bitstring_app; split; [done|apply bitstring_bit_char]).
  assert (length frame = (length data + 32)%nat) as Hlen
    by (unfold frame; rewrite length_app, length_fmap, crc_cells_length; lia).
  assert (Forall (λ p, (p < length frame)%nat) positions) as Hps.
  { apply Forall_forall. intros p Hp. rewrite Hlen. by apply Hwin. }
  destruct (flip_bits_cells positions frame Hframe Hps)
    as (corrupted & Hrun & Hcorrupted & Hcells).
  rewrite Hlen in Hcells, Hps.
  set (err := flip_pattern (length data + 32) positions) in *.
  assert (∃ p0, p0 ∈ positions) as [p0 Hp0].
  { destruct positions as [|p0 ?]; [done|]. exists p0. by left. }
  assert (err !! p0 = Some 1) as Hone.
  { unfold err.
    rewrite flip_pattern_lookup by (done || destruct (Hwin p0 Hp0); lia).
    by rewrite decide_True. }
  destruct (cells_first_one err p0 (flip_pattern_cells _ _) Hone)
    as (j & Hj & Hfirst & Hbefore).
  assert (j ∈ positions) as Hjin.
  { destruct (decide (j ∈ positions)) as [|Hnin]; [done|exfalso].
    unfold err in Hfirst.
    rewrite flip_pattern_lookup in Hfirst
      by (done || destruct (Hwin p0 Hp0); lia).
    by rewrite decide_False in Hfirst. }
  destruct (check_crc_error data corrupted err j) as (v & Hv & Hnz);
    [done|done|done|apply flip_pattern_cells|by apply flip_pattern_length
    |done|done| |].
  - intros q Hq. unfold err. rewrite flip_pattern_lookup by (done || lia).
    rewrite decide_False; [done|]. intros Hin.
    destruct (Hwin q Hin), (Hwin j Hjin). lia.
  - exists (bit_char <$> crc_cells data), corrupted, v.
    split; [by apply generate_crc_cells|]. done.
Qed.

Lemma check_crc_detects_burst_witness :
  ∃ crc corrupted v,
    generate_crc (lit "0100000101000010") = Ok crc ∧
    for_each (Z.of_nat <$> [3; 17; 34]%nat) flip_bit
      (lit "0100000101000010" ++ crc) = Ok corrupted ∧
    check_crc corrupted = Ok v ∧ v ≠ 0.
Proof.
  apply (check_crc_detects_burst (lit "0100000101000010") [3; 17; 34]%nat
           3%nat);
    [by_decide|discriminate|by_decide|].
  intros p Hp. vm_compute.
  repeat (apply elem_of_cons in Hp as [->|Hp]); [lia..|].
  by apply elem_of_nil in Hp.
Defined.

(** ** The comparing verifier detects every single flipped bit *)

Lemma flipped_bit c : is_bit c → is_bit (flipped c) ∧ flipped c ≠ c.
Proof. intros [-> | ->]; (split; [by_decide|done]). Qed.

(** Flipping the bit at [o] moves the value by the weight of that bit. *)
Lemma binary_value_flip s (o : nat) c :
  s !! o = Some c → is_bit c →
  binary_value (<[o := flipped c]> s)
  = binary_value s + flip_sign c * 2 ^ Z.of_nat (length s - 1 - o).
Proof.
  intros Hc Hbit. pose proof (lookup_lt_Some _ _ _ Hc) as Ho.
  rewrite insert_take_drop by done.
  rewrite <- (take_drop_middle s o c) at 3 by done.
  rewrite !binary_value_app. unfold len. simpl.
  rewrite length_drop.
  replace (length s - S o)%nat with (length s - 1 - o)%nat by lia.
  destruct Hbit as [-> | ->]; vm_compute bit_value; vm_compute flip_sign; lia.
Qed.

Lemma words_total_take w k s :
  words_total w k s = words_total w k (take (k * w) s).
Proof.
  destruct (decide (k * w ≤ length s)%nat) as [Hle|Hgt].
  - rewrite <- (take_drop (k * w) s) at 1.
    apply words_total_app. rewrite length_take. lia.
  - by rewrite take_ge by lia.
Qed.

(** Flipping one bit of the words that are summed moves the sum by a power
    of two below [2 ^ w]. *)
Lemma words_total_flip (w k p : nat) s c :
  s !! p = Some c → is_bit c → (p < k * w)%nat → (k * w ≤ length s)%nat →
  words_total w k (<[p := flipped c]> s)
  = words_total w k s + flip_sign c * 2 ^ Z.of_nat (w - 1 - p `mod` w).
Proof.
  intros Hc Hbit. induction k as [|k IH]; intros Hp Hk; [lia|].
  assert (0 < w)%nat by (destruct w; lia).
  simpl words_total. destruct (decide (p < k * w)%nat) as [Hlt|Hge].
  - rewrite IH, drop_insert_lt by lia. lia.
  - rewrite (words_total_take w k (<[_ := _]> s)), take_insert_ge by lia.
    rewrite <- words_total_take, drop_insert_ge, take_insert_lt by lia.
    rewrite (binary_value_flip _ _ c);
      [|rewrite lookup_take_lt, lookup_drop by lia;
        by replace (k * w + (p - k * w))%nat with p by lia|done].
    rewrite length_take, length_drop.
    replace (p `mod` w)%nat with (p - k * w)%nat
      by (apply (Nat.mod_unique p w k); lia).
    replace (w `min` (length s - k * w) - 1 - (p - k * w))%nat
      with (w - 1 - (p - k * w))%nat by lia.
    lia.
Qed.

Lemma checksum_total_flip data w (p : nat) c :
  0 < w → data !! p = Some c → is_bit c →
  checksum_total (<[p := flipped c]> data) w
  = checksum_total data w
    + flip_sign c * 2 ^ Z.of_nat (Z.to_nat w - 1 - p `mod` Z.to_nat w).
Proof.
  intros Hw Hc Hbit. pose proof (lookup_lt_Some _ _ _ Hc) as Hp.
  unfold checksum_total.
  assert (padded_bits (<[p := flipped c]> data) w
          = <[p := flipped c]> (padded_bits data w)) as ->.
  { unfold padded_bits, len. by rewrite length_insert, insert_app_l. }
  unfold len at 1. rewrite length_insert. fold (len (padded_bits data w)).
  pose proof (padded_bits_length data w Hw) as Hm.
  pose proof (len_nonneg (padded_bits data w)).
  assert (0 ≤ len (padded_bits data w) / w) by (apply Z.div_pos; lia).
  assert (length (padded_bits data w)
          = (Z.to_nat (len (padded_bits data w) / w) * Z.to_nat w)%nat) as Hk
    by (unfold len in *; apply Nat2Z.inj; rewrite Nat2Z.inj_mul, !Z2Nat.id;
        [zlia|lia|lia]).
  assert (length data ≤ length (padded_bits data w))%nat
    by (unfold padded_bits; rewrite length_app; lia).
  apply words_total_flip; [|done|lia..].
  unfold padded_bits. by apply lookup_app_l_Some.
Qed.

(** Two sums that differ by a power of two below [2 ^ w] fold to different
    words, for a width of at least 2. *)
Lemma end_around_shift w t (e : nat) sign :
  2 ≤ w → 0 ≤ t → (sign = 1 ∨ sign = -1) → Z.of_nat e < w →
  0 ≤ t + sign * 2 ^ Z.of_nat e →
  end_around (2 ^ w - 1) (t + sign * 2 ^ Z.of_nat e)
  ≠ end_around (2 ^ w - 1) t.
Proof.
  intros Hw Ht Hsign He Ht'.
  set (M := 2 ^ w - 1). set (d := 2 ^ Z.of_nat e).
  assert (0 < d) by (apply Z.pow_pos_nonneg; lia).
  assert (d < M) as HdM.
  { unfold d, M.
    assert (2 ^ Z.of_nat e ≤ 2 ^ (w - 1)) by (apply Z.pow_le_mono_r; lia).
    assert (2 ≤ 2 ^ (w - 1)) by (apply (Z.pow_le_mono_r 2 1); lia).
    assert (2 ^ w = 2 * 2 ^ (w - 1)) as ->
      by (rewrite <- Z.pow_succ_r by lia; f_equal; lia).
    lia. }
  unfold end_around. repeat destruct (decide _); try lia.
  - pose proof (Z.mod_pos_bound (t - 1) M). lia.
  - pose proof (Z.mod_pos_bound (t + sign * d - 1) M). lia.
  - intros E.
    pose proof (Z.div_mod (t + sign * d - 1) M) as E1.
    pose proof (Z.div_mod (t - 1) M) as E2.
    assert ((t + sign * d - 1) `mod` M = (t - 1) `mod` M) as Emod by lia.
    rewrite Emod in E1.
    set (q1 := (t + sign * d - 1) / M) in *. set (q2 := (t - 1) / M) in *.
    assert (sign * d = M * (q1 - q2)) as Ediv by lia.
    destruct (decide (q1 = q2)) as [->|Hq]; [destruct Hsign; lia|].
    destruct Hsign as [-> | ->]; nia.
Qed.

Lemma flip_sign_cases c : flip_sign c = 1 ∨ flip_sign c = -1.
Proof. unfold flip_sign. destruct (decide _); auto. Qed.

(** Flipping any single bit of [add_checksum(data, w)], in the data or in
    the checksum, makes [verify_checksum_simple] return [False], for every
    width of at least 2. *)
Theorem verify_checksum_simple_detects_single_flip
    (data : str) (w j : Z) :
  bitstring data → 2 ≤ w → 0 ≤ j < len data + w →
  ∃ frame corrupted calculated received,
    add_checksum data w = Ok frame ∧
    flip_bit frame j = Ok corrupted ∧
    verify_checksum_simple corrupted w = Ok (false, calculated, received).
Proof.
  intros Hdata Hw Hj.
  destruct (calculate_checksum_bits data w) as (c & Hc & Hlen & Hbits & _);
    [done|lia|].
  assert (bitstring (data ++ c)) as Hframe by (by apply bitstring_app).
  destruct (lookup_lt_is_Some_2 (data ++ c) (Z.to_nat j)) as [x Hx];
    [rewrite length_app; unfold len in *; lia|].
  assert (is_bit x) as Hbit by (eapply Forall_lookup_1; [exact Hframe|exact Hx]).
  destruct (flipped_bit x Hbit) as [Hbit' Hne].
  exists (data ++ c), (<[Z.to_nat j := flipped x]> (data ++ c)).
  rewrite (add_checksum_frame data w c), (flip_bit_insert _ _ x) by (done || lia).
  destruct (decide (j < len data)) as [Hin|Hout].
  - (* the flipped bit is in the data *)
    rewrite lookup_app_l in Hx by (unfold len in *; lia).
    rewrite insert_app_l by (unfold len in *; lia).
    set (data' := <[Z.to_nat j := flipped x]> data).
    assert (bitstring data') as Hdata' by (by apply Forall_insert).
    destruct (calculate_checksum_bits data' w) as (c' & Hc' & _); [done|lia|].
    exists c', c. split; [done|]. split; [done|].
    rewrite (verify_checksum_simple_split data' c c') by (done || lia).
    do 2 f_equal. f_equal. apply bool_decide_eq_false. intros ->.
    rewrite calculate_checksum_value in Hc, Hc' by (done || lia).
    assert (0 ≤ checksum_total data w) as Ht by apply words_total_nonneg.
    assert (0 ≤ checksum_total data' w) as Ht' by apply words_total_nonneg.
    pose proof (fold_carry_range w ltac:(lia) _ Ht) as Hr.
    pose proof (fold_carry_range w ltac:(lia) _ Ht') as Hr'.
    rewrite fold_carry_end_around in Hr, Hr' by (done || lia).
    assert (end_around (2 ^ w - 1) (checksum_total data' w)
            = end_around (2 ^ w - 1) (checksum_total data w)) as E.
    { assert (Ok (format_0b (2 ^ w - 1 - end_around (2 ^ w - 1)
                               (checksum_total data' w)) w)
              = Ok (format_0b (2 ^ w - 1 - end_around (2 ^ w - 1)
                                 (checksum_total data w)) w)) as [= E]
        by congruence.
      apply (f_equal binary_value) in E.
      rewrite !binary_value_format_0b in E by lia. lia. }
    unfold data' in E, Ht'.
    rewrite (checksum_total_flip data w _ x) in E, Ht' by (done || lia).
    revert E. apply end_around_shift;
      [done|done|apply flip_sign_cases| |done].
    assert (0 < Z.to_nat w)%nat by lia. lia.
  - (* the flipped bit is in the checksum *)
    rewrite lookup_app_r in Hx by (unfold len in *; lia).
    rewrite insert_app_r_alt by (unfold len in *; lia).
    set (c' := <[(Z.to_nat j - length data)%nat := flipped x]> c).
    exists c, c'. split; [done|]. split; [done|].
    rewrite (verify_checksum_simple_split data c' c)
      by (done || lia || unfold c', len; rewrite length_insert; done).
    do 2 f_equal. f_equal. apply bool_decide_eq_false. intros E.
    assert (c' !! (Z.to_nat j - length data)%nat = Some (flipped x)) as Hx'
      by (apply list_lookup_insert_eq; by apply lookup_lt_Some in Hx).
    rewrite <- E, Hx in Hx'. by injection Hx' as Hx'.
Qed.

Lemma verify_checksum_simple_detects_single_flip_witness :
  ∃ frame corrupted calculated received,
    add_checksum (lit "010000010100001001000011") 16 = Ok frame ∧
    flip_bit frame 5 = Ok corrupted ∧
    verify_checksum_simple corrupted 16 = Ok (false, calculated, received).
Proof.
  apply (verify_checksum_simple_detects_single_flip
           (lit "010000010100001001000011") 16 5);
    [by_decide|lia|vm_compute; split; [discriminate|reflexivity]].
Defined.

(** ** The checksum does not see the order of the words *)

(** The words of a string that starts with whole words: those of the start,
    then those of the rest. *)
Lemma words_total_prefix (w ka k : nat) (a s : str) :
  length a = (ka * w)%nat →
  words_total w (ka + k) (a ++ s) = words_total w ka a + words_total w k s.
Proof.
  intros Ha. induction k as [|k IH].
  - rewrite Nat.add_0_r. cbn [words_total].
    rewrite words_total_app by lia. lia.
  - replace (ka + S k)%nat with (S (ka + k)) by lia. cbn [words_total].
    rewrite IH.
    replace ((ka + k) * w)%nat with (length a + k * w)%nat by lia.
    rewrite drop_app_add. lia.
Qed.

Lemma checksum_total_app (a b : str) (w : Z) :
  0 < w → len a `mod` w = 0 →
  checksum_total (a ++ b) w = checksum_total a w + checksum_total b w.
Proof.
  intros Hw Ha. unfold len in Ha.
  apply Z.mod_divide in Ha as [q Hq]; [|lia].
  assert (0 ≤ q) as Hq0 by nia.
  assert (length a = (Z.to_nat q * Z.to_nat w)%nat) as Hlen by nia.
  assert (padded_bits a w = a) as Hpa.
  { unfold padded_bits, len. rewrite Hq.
    replace (- (q * w)) with (0 + (- q) * w) by lia.
    rewrite Z.mod_add, Z.mod_0_l by lia. apply app_nil_r. }
  assert (padded_bits (a ++ b) w = a ++ padded_bits b w) as Hpab.
  { unfold padded_bits, len. rewrite <- app_assoc, length_app, Nat2Z.inj_add, Hq.
    replace (- (q * w + Z.of_nat (length b)))
      with (- Z.of_nat (length b) + (- q) * w) by lia.
    by rewrite Z.mod_add by lia. }
  unfold checksum_total. rewrite Hpa, Hpab.
  set (pb := padded_bits b w).
  assert (Z.to_nat (len (a ++ pb) / w)
          = (Z.to_nat q + Z.to_nat (len pb / w))%nat) as ->.
  { unfold len. rewrite length_app, Nat2Z.inj_add, Hq.
    rewrite Z.add_comm, Z.div_add by lia.
    rewrite Z2Nat.inj_add; [lia| |lia]. apply Z.div_pos; lia. }
  rewrite (words_total_prefix _ _ _ _ _ Hlen). f_equal.
  f_equal. unfold len. rewrite Hq, Z.div_mul by lia. done.
Qed.

(** Exchanging two blocks of whole words leaves the checksum as it is, so
    [verify_checksum_simple] accepts the frame of [add_checksum] with the
    two blocks of the data exchanged. *)
Theorem checksum_misses_swapped_blocks (a b : str) (w : Z) :
  bitstring a → bitstring b → 0 < w →
  len a `mod` w = 0 → len b `mod` w = 0 →
  ∃ c, calculate_checksum (a ++ b) w = Ok c ∧
       calculate_checksum (b ++ a) w = Ok c ∧
       add_checksum (a ++ b) w = Ok ((a ++ b) ++ c) ∧
       verify_checksum_simple ((b ++ a) ++ c) w = Ok (true, c, c).
Proof.
  intros Ha Hb Hw Hla Hlb.
  assert (bitstring (a ++ b)) as Hab by (by apply bitstring_app).
  assert (bitstring (b ++ a)) as Hba by (by apply bitstring_app).
  destruct (calculate_checksum_bits (a ++ b) w) as (c & Hc & _); [done..|].
  assert (calculate_checksum (b ++ a) w = Ok c) as Hc'.
  { rewrite <- Hc, !calculate_checksum_value by done.
    rewrite !checksum_total_app by done. do 4 f_equal. lia. }
  exists c. split; [done|]. split; [done|].
  split; [by apply add_checksum_frame|by apply verify_checksum_simple_frame].
Qed.

Lemma checksum_misses_swapped_blocks_witness :
  ∃ c, calculate_checksum (lit "01000001" ++ lit "0100001001000011") 8 = Ok c ∧
       calculate_checksum (lit "0100001001000011" ++ lit "01000001") 8 = Ok c ∧
       add_checksum (lit "01000001" ++ lit "0100001001000011") 8
       = Ok ((lit "01000001" ++ lit "0100001001000011") ++ c) ∧
       verify_checksum_simple
         ((lit "0100001001000011" ++ lit "01000001") ++ c) 8
       = Ok (true, c, c).
Proof.
  apply (checksum_misses_swapped_blocks
           (lit "01000001") (lit "0100001001000011") 8);
    [by_decide|by_decide|lia|reflexivity|reflexivity].
Defined.
